(** * fill_playlist: reading track identifiers, snapshotting a playlist,
      and appending the missing tracks in batches

    A shallow embedding of [fill_playlist.py] together with the stand-in
    client of [test_fill_playlist.py], and the properties of the three
    helpers [read_track_ids], [get_existing_track_ids] and
    [add_tracks_to_playlist]. *)

From Stdlib Require Import ZArith NArith List Ascii String Lia.
From stdpp Require Import base tactics option list gmap sets pretty.
Import ListNotations.

Local Open Scope Z_scope.
Set Warnings "-clear-no-such-hyp".

(** ** Python strings

    A Python [str] is a sequence of Unicode code points.  Code points are
    kept as numbers so that [str.strip] sees the same whitespace as the
    interpreter does, also outside ASCII. *)

Abbreviation codepoint := N (only parsing).
Abbreviation str := (list N) (only parsing).

(** ASCII literals of the source, as code-point sequences. *)
Definition lit (s : string) : str :=
  map N_of_ascii (list_ascii_of_string s).

Module Py.

(** [bool(s)] for a string: the empty string is falsy. *)
Definition truthy (s : str) : bool :=
  match s with [] => false | _ :: _ => true end.

(** [ch.isspace()]: the code points the interpreter treats as
    whitespace. *)
Definition isspace (c : codepoint) : bool :=
  (((9 <=? c) && (c <=? 13)) || ((28 <=? c) && (c <=? 32))
   || (c =? 133) || (c =? 160) || (c =? 5760)
   || ((8192 <=? c) && (c <=? 8202))
   || (c =? 8232) || (c =? 8233) || (c =? 8239) || (c =? 8287)
   || (c =? 12288))%N.

Fixpoint lstrip (s : str) : str :=
  match s with
  | [] => []
  | c :: s' => if isspace c then lstrip s' else s
  end.

Definition rstrip (s : str) : str := rev (lstrip (rev s)).

(** [s.strip()] *)
Definition strip (s : str) : str := rstrip (lstrip s).

(** [s.startswith(prefix)] *)
Fixpoint startswith (pre s : str) : bool :=
  match pre, s with
  | [], _ => true
  | _ :: _, [] => false
  | p :: pre', c :: s' => (p =? c)%N && startswith pre' s'
  end.

(** [sep in s] for a separator of one code point. *)
Definition contains (sep : codepoint) (s : str) : bool :=
  existsb (N.eqb sep) s.

(** [s.split(sep)] for a separator of one code point: the segments
    between the occurrences of [sep]; never the empty list. *)
Fixpoint split (sep : codepoint) (s : str) : list str :=
  match s with
  | [] => [[]]
  | c :: s' =>
      if (c =? sep)%N then [] :: split sep s'
      else match split sep s' with
           | [] => [[c]]
           | seg :: segs => (c :: seg) :: segs
           end
  end.

(** [parts[-1]]; the empty-list case raises in Python and does not
    arise for the result of [split]. *)
Definition last_item (parts : list str) : str := List.last parts [].

(** Text-mode decoding of line ends ([newline=None]): CR LF and a lone
    CR both read as LF. *)
Fixpoint universal_newlines (after_cr : bool) (s : str) : str :=
  match s with
  | [] => []
  | c :: s' =>
      if (c =? 13)%N then 10%N :: universal_newlines true s'
      else if (c =? 10)%N && after_cr then universal_newlines false s'
      else c :: universal_newlines false s'
  end.

(** The lines a text file yields when iterated: each keeps its
    terminating LF; a last line without one is yielded as it is. *)
Fixpoint lines (s : str) : list str :=
  match s with
  | [] => []
  | c :: s' =>
      if (c =? 10)%N then [c] :: lines s'
      else match lines s' with
           | [] => [[c]]
           | l :: ls => (c :: l) :: ls
           end
  end.

(** [for line in f] over the decoded content of a file. *)
Definition iter_file (content : str) : list str :=
  lines (universal_newlines false content).

(** [range(start, stop, step)] for a positive [step]. *)
Definition range (start stop step : Z) : list Z :=
  map (fun i => start + Z.of_nat i * step)
      (seq 0 (Z.to_nat ((stop - start + step - 1) / step))).

(** [l[lo:hi]] for [0 <= lo]: indices past the end are clamped. *)
Definition slice {A} (l : list A) (lo hi : Z) : list A :=
  take (Z.to_nat (hi - lo)) (drop (Z.to_nat lo) l).

(** [len(l)] *)
Definition len {A} (l : list A) : Z := Z.of_nat (length l).

(** [str(n)] for an integer, as in an f-string field. *)
Definition str_of_int (n : Z) : str := lit (pretty n).

End Py.

(** ** Data exchanged with the remote service

    A page of playlist items as [playlist_items] returns it for the field
    selection [items.track.id,total]:
    [{"items": [{"track": {"id": ...}}, ...], "total": ...}].
    A key that is missing and a key bound to [None] read the same through
    [dict.get], so both are [None] here; for ["items"] only the missing key
    is meant, a page that has the key carries a list. *)

Record Track := { track_id : option str }.
Record Item := { item_track : option Track }.
Record Response := { resp_items : option (list Item); resp_total : option Z }.

(** Exceptions that leave the helpers uncaught. *)
Inductive exn :=
| FileNotFoundError (path : str)
| SpotifyException (http_status : Z) (msg : str).

(** The two methods of [spotipy.Spotify] the helpers call.  A client is a
    state machine: a call answers or raises, and leaves a new state. *)
Class Spotify (S : Type) := {
  playlist_items : S -> str -> Z -> Z -> str -> (exn + Response) * S;
  playlist_add_items : S -> str -> list str -> (exn + unit) * S
}.

(** What a run does that can be seen from outside, in the order it does
    it: the calls it issues to the client and the lines it prints. *)
Inductive event :=
| CallPlaylistItems (playlist_id : str) (offset limit : Z) (fields : str)
| CallPlaylistAddItems (playlist_id : str) (items : list str)
| Stdout (line : str).

Record world (S : Type) := World { client : S; log : list event }.
Arguments World {S} _ _.
Arguments client {S} _.
Arguments log {S} _.

(** How a computation ends: with a value, with an uncaught exception, or
    not within the given number of loop iterations. *)
Inductive outcome (A : Type) :=
| Return (a : A)
| Raise (e : exn)
| OutOfFuel.
Arguments Return {A} _.
Arguments Raise {A} _.
Arguments OutOfFuel {A}.

Definition M (S A : Type) : Type := world S -> outcome A * world S.

Definition ret {S A} (a : A) : M S A := fun w => (Return a, w).

Definition bind {S A B} (m : M S A) (k : A -> M S B) : M S B :=
  fun w =>
    match m w with
    | (Return a, w') => k a w'
    | (Raise e, w') => (Raise e, w')
    | (OutOfFuel, w') => (OutOfFuel, w')
    end.

Definition out_of_fuel {S A} : M S A := fun w => (OutOfFuel, w).

Declare Scope py_scope.
Delimit Scope py_scope with py.
Notation "x <~ m ;; k" := (bind m (fun x => k))
  (at level 100, m at next level, right associativity) : py_scope.
Notation "m ;;; k" := (bind m (fun _ => k))
  (at level 100, right associativity) : py_scope.
Local Open Scope py_scope.

(** [for x in xs: body(x)] *)
Fixpoint for_each {S A} (xs : list A) (body : A -> M S unit) : M S unit :=
  match xs with
  | [] => ret tt
  | x :: xs' => body x ;;; for_each xs' body
  end.

Section Helpers.

Context {S : Type} `{Spotify S}.

Definition record (ev : event) (w : world S) : list event := log w ++ [ev].

(** [print(line)] *)
Definition print (line : str) : M S unit :=
  fun w => (Return tt, World (client w) (record (Stdout line) w)).

(** [sp.playlist_items(playlist_id, offset=..., limit=..., fields=...)] *)
Definition call_playlist_items (playlist_id : str) (offset limit : Z)
    (fields : str) : M S Response :=
  fun w =>
    let '(r, c) := playlist_items (client w) playlist_id offset limit fields in
    (match r with inl e => Raise e | inr response => Return response end,
     World c (record (CallPlaylistItems playlist_id offset limit fields) w)).

(** [sp.playlist_add_items(playlist_id, batch)] *)
Definition call_playlist_add_items (playlist_id : str) (batch : list str)
    : M S unit :=
  fun w =>
    let '(r, c) := playlist_add_items (client w) playlist_id batch in
    (match r with inl e => Raise e | inr _ => Return tt end,
     World c (record (CallPlaylistAddItems playlist_id batch) w)).

(** *** get_existing_track_ids *)

Definition limit : Z := 100.
Definition fields : str := lit "items.track.id,total".

(** The body of [for item in items]:
    [track = item.get("track")]; [if track and track.get("id"): existing.add(track["id"])].
    [track] is falsy when it is [None] or the empty object, which has no
    identifier either and reads as [track_id = None]; an identifier is
    truthy when it is a string that is not empty. *)
Definition add_item (existing : gset str) (item : Item) : gset str :=
  match item_track item with
  | Some track =>
      match track_id track with
      | Some id => if Py.truthy id then existing ∪ {[ id ]} else existing
      | None => existing
      end
  | None => existing
  end.

(** [response.get("items", [])] *)
Definition get_items (response : Response) : list Item :=
  default [] (resp_items response).

(** The [while True] loop, one iteration per unit of fuel. *)
Fixpoint get_existing_loop (fuel : nat) (playlist_id : str)
    (existing : gset str) (offset : Z) : M S (gset str) :=
  match fuel with
  | O => out_of_fuel
  | Datatypes.S fuel' =>
      response <~ call_playlist_items playlist_id offset limit fields ;;
      let items := get_items response in
      let existing := foldl add_item existing items in
      let offset := offset + limit in
      if Py.len items <? limit then ret existing
      else get_existing_loop fuel' playlist_id existing offset
  end.

Definition get_existing_track_ids (fuel : nat) (playlist_id : str)
    : M S (gset str) :=
  get_existing_loop fuel playlist_id ∅ 0.

(** *** add_tracks_to_playlist *)

Definition msg_nothing_new : str :=
  lit "No new tracks to add; playlist already contains all provided songs.".
Definition msg_adding (n : Z) (playlist_id : str) : str :=
  lit "Adding " ++ Py.str_of_int n ++ lit " new tracks to playlist "
  ++ playlist_id ++ lit "...".
Definition msg_added (n : Z) : str :=
  lit "Added " ++ Py.str_of_int n ++ lit " tracks.".
Definition msg_all_added : str := lit "All tracks added successfully.".

Definition batch_size : Z := 100.

(** [[tid for tid in track_ids if tid not in existing]] *)
Definition to_add (existing : gset str) (track_ids : list str) : list str :=
  filter (fun tid => tid ∉ existing) track_ids.

(** The body of [for start in range(0, len(to_add), batch_size)]. *)
Definition add_batch (playlist_id : str) (to_add : list str) (start : Z)
    : M S unit :=
  let batch := Py.slice to_add start (start + batch_size) in
  call_playlist_add_items playlist_id batch ;;;
  print (msg_added (Py.len batch)).

Definition add_tracks_to_playlist (fuel : nat) (playlist_id : str)
    (track_ids : list str) : M S unit :=
  existing <~ get_existing_track_ids fuel playlist_id ;;
  let to_add := to_add existing track_ids in
  match to_add with
  | [] => print msg_nothing_new
  | _ :: _ =>
      print (msg_adding (Py.len to_add) playlist_id) ;;;
      for_each (Py.range 0 (Py.len to_add) batch_size)
               (add_batch playlist_id to_add) ;;;
      print msg_all_added
  end.

End Helpers.

(** ** read_track_ids *)

(** The files that can be opened, by path, with their decoded content. *)
Abbreviation filesystem := (gmap (list N) (list N)) (only parsing).

(** [file_path.open("r", encoding="utf-8")] *)
Definition open (fs : filesystem) (file_path : str) : exn + str :=
  match fs !! file_path with
  | Some content => inr content
  | None => inl (FileNotFoundError file_path)
  end.

Definition hash : codepoint := 35%N.
Definition colon : codepoint := 58%N.

(** The body of [for line in f], on the list [ids] built so far. *)
Definition read_line (ids : list str) (line : str) : list str :=
  let line := Py.strip line in
  if negb (Py.truthy line) || Py.startswith [hash] line then ids
  else
    let track_id :=
      if Py.contains colon line then
        let parts := Py.split colon line in
        Py.last_item parts
      else line in
    if Py.truthy track_id then ids ++ [track_id] else ids.

Definition read_track_ids (fs : filesystem) (file_path : str)
    : exn + list str :=
  match open fs file_path with
  | inl e => inl e
  | inr f => inr (foldl read_line [] (Py.iter_file f))
  end.

(** ** The stand-in client of the tests *)

Record DummySpotifyClient := Dummy {
  _playlist_responses : list Response;
  playlist_items_calls : nat;
  added_batches : list (list str)
}.

(** [DummySpotifyClient(playlist_responses)] *)
Definition dummy_init (playlist_responses : list Response)
    : DummySpotifyClient :=
  Dummy playlist_responses 0 [].

(** [{"items": []}] *)
Definition empty_page : Response :=
  {| resp_items := Some []; resp_total := None |}.

(** The next response of the list, whatever the offset asked for, and an
    empty page once the list is used up. *)
Definition dummy_playlist_items (c : DummySpotifyClient) (playlist_id : str)
    (offset limit : Z) (fields : str) : (exn + Response) * DummySpotifyClient :=
  let response :=
    match _playlist_responses c !! playlist_items_calls c with
    | Some r => r
    | None => empty_page
    end in
  (inr response,
   Dummy (_playlist_responses c) (playlist_items_calls c + 1) (added_batches c)).

Definition dummy_playlist_add_items (c : DummySpotifyClient)
    (playlist_id : str) (items : list str) : (exn + unit) * DummySpotifyClient :=
  (inr tt,
   Dummy (_playlist_responses c) (playlist_items_calls c) (added_batches c ++ [items])).

#[export] Instance dummy_spotify : Spotify DummySpotifyClient := {
  playlist_items := dummy_playlist_items;
  playlist_add_items := dummy_playlist_add_items
}.

(** ** A client whose append calls fail after a while

    It answers page requests like the stand-in client and accepts
    [quota] append calls; every later append call raises, as the remote
    service does on a rate limit or an expired token. *)

Record QuotaClient := Quota {
  quota_pages : DummySpotifyClient;
  quota : nat
}.

Definition quota_playlist_items (c : QuotaClient) (playlist_id : str)
    (offset limit : Z) (fields : str) : (exn + Response) * QuotaClient :=
  let '(r, d) := dummy_playlist_items (quota_pages c) playlist_id offset limit fields in
  (r, Quota d (quota c)).

Definition quota_playlist_add_items (c : QuotaClient) (playlist_id : str)
    (items : list str) : (exn + unit) * QuotaClient :=
  match quota c with
  | O => (inl (SpotifyException 429 (lit "rate limited")), c)
  | Datatypes.S q =>
      let '(r, d) := dummy_playlist_add_items (quota_pages c) playlist_id items in
      (r, Quota d q)
  end.

#[export] Instance quota_spotify : Spotify QuotaClient := {
  playlist_items := quota_playlist_items;
  playlist_add_items := quota_playlist_add_items
}.

(** ** What the remote service answers

    [serves c pid offset pages c']: asked for successive pages of
    [limit] items starting at [offset], the client in state [c] answers
    with [pages], one after the other, and is left in state [c'].
    [accepts c pid batches c']: the client accepts the append calls for
    [batches], one after the other. *)

Fixpoint serves {S} `{Spotify S} (c : S) (playlist_id : str) (offset : Z)
    (pages : list Response) (c' : S) : Prop :=
  match pages with
  | [] => c' = c
  | r :: pages' =>
      exists c1,
        playlist_items c playlist_id offset limit fields = (inr r, c1)
        /\ serves c1 playlist_id (offset + limit) pages' c'
  end.

Fixpoint accepts {S} `{Spotify S} (c : S) (playlist_id : str)
    (batches : list (list str)) (c' : S) : Prop :=
  match batches with
  | [] => c' = c
  | b :: batches' =>
      exists c1,
        playlist_add_items c playlist_id b = (inr tt, c1)
        /\ accepts c1 playlist_id batches' c'
  end.

(** ** Reading the log of a run *)

Definition page_request (ev : event) : option (str * Z * Z * str) :=
  match ev with
  | CallPlaylistItems pid offset lim flds => Some (pid, offset, lim, flds)
  | _ => None
  end.

Definition append_call (ev : event) : option (list str) :=
  match ev with
  | CallPlaylistAddItems _ batch => Some batch
  | _ => None
  end.

(** The page requests of a log, and the payloads of its append calls. *)
Definition page_requests (evs : list event) : list (str * Z * Z * str) :=
  omap page_request evs.
Definition append_calls (evs : list event) : list (list str) :=
  omap append_call evs.

(** The page requests of a fetch that needs [n] pages. *)
Definition requests (playlist_id : str) (offset : Z) (n : nat) : list event :=
  map (fun k => CallPlaylistItems playlist_id (offset + Z.of_nat k * limit) limit fields)
      (seq 0 n).

(** [l[start : start + batch_size]] *)
Definition batch_at (l : list str) (start : Z) : list str :=
  Py.slice l start (start + batch_size).

(** The batches the loop of [add_tracks_to_playlist] cuts [to_add] into. *)
Definition batches (to_add : list str) : list (list str) :=
  map (batch_at to_add) (Py.range 0 (Py.len to_add) batch_size).

(** [ceil(a / b)] for positive [b]. *)
Definition ceil_div (a b : Z) : Z := (a + b - 1) / b.

(** The number of batches for a residue of [n] identifiers. *)
Definition num_batches (n : nat) : nat :=
  Z.to_nat (ceil_div (Z.of_nat n) batch_size).

(** The events of the batch loop for the batches it gets through. *)
Definition batch_events (playlist_id : str) (bs : list (list str))
    : list event :=
  bs ≫= (fun b => [CallPlaylistAddItems playlist_id b;
                    Stdout (msg_added (Py.len b))]).

(** What a run that gets through adds to the log after the fetch. *)
Definition run_events (pid : str) (residue : list str) : list event :=
  match residue with
  | [] => [Stdout msg_nothing_new]
  | _ :: _ =>
      Stdout (msg_adding (Py.len residue) pid)
      :: batch_events pid (batches residue) ++ [Stdout msg_all_added]
  end.

(** The identifiers a list of items contributes to the snapshot. *)
Definition item_ids (items : list Item) : gset str :=
  foldl add_item ∅ items.

(** The set the loop has accumulated after the given pages. *)
Definition after_pages (X : gset str) (pages : list Response) : gset str :=
  foldl (fun X r => foldl add_item X (get_items r)) X pages.

Section Continuation.

Context {S : Type} `{Spotify S}.

(** What is left to do once the snapshot is there. *)
Definition after_fetch (pid : str) (residue : list str) : M S unit :=
  match residue with
  | [] => print msg_nothing_new
  | _ :: _ =>
      print (msg_adding (Py.len residue) pid) ;;;
      for_each (Py.range 0 (Py.len residue) batch_size) (add_batch pid residue) ;;;
      print msg_all_added
  end.

End Continuation.

(** ** The contracts in the words of the design document *)

(** The identifier normalizer, line by line: trim the line; skip it when
    nothing is left or when its first non-whitespace character is the
    comment marker; take the segment after the last colon when there is a
    colon and the trimmed line otherwise; drop an empty result. *)

Definition first_non_whitespace (line : str) : option codepoint :=
  List.find (fun c => negb (Py.isspace c)) line.

Fixpoint up_to (sep : codepoint) (s : str) : str :=
  match s with
  | [] => []
  | c :: s' => if (c =? sep)%N then [] else c :: up_to sep s'
  end.

(** Read from the end backwards until a separator is met. *)
Definition after_last (sep : codepoint) (s : str) : str :=
  rev (up_to sep (rev s)).

Definition normalize_line (raw : str) : option str :=
  let trimmed := Py.strip raw in
  if decide (trimmed = []) then None
  else if decide (first_non_whitespace raw = Some hash) then None
  else
    let identifier :=
      if decide (colon ∈ trimmed) then after_last colon trimmed
      else trimmed in
    if decide (identifier = []) then None else Some identifier.

Definition normalized (content : str) : list str :=
  omap normalize_line (Py.iter_file content).

(** The identifiers listed on a page, leaving out the entries without a
    track reference and those whose identifier is null. *)
Definition listed_id (item : Item) : option str :=
  match item_track item with
  | Some track => track_id track
  | None => None
  end.

Definition listed_ids (pages : list Response) : list str :=
  omap listed_id (pages ≫= get_items).

(** The snapshot as the fetcher's contract words it: the union of the
    listed identifiers of all pages. *)
Definition snapshot_of_listed (pages : list Response) : gset str :=
  list_to_set (listed_ids pages).

(** The same, without the empty string. *)
Definition snapshot_of_nonempty (pages : list Response) : gset str :=
  list_to_set (filter (fun id => id ≠ []) (listed_ids pages)).

(** The residue in the words of the design document: a subsequence of
    the input, in which an identifier of the existing-set does not occur
    and every other identifier occurs as often as in the input. *)
Definition occurrences (t : str) (l : list str) : nat :=
  length (filter (fun x => x = t) l).

Definition is_residue (existing : gset str) (track_ids residue : list str)
    : Prop :=
  residue `sublist_of` track_ids
  /\ forall t, occurrences t residue
            = if decide (t ∈ existing) then 0%nat else occurrences t track_ids.

(** ** Data of the tests *)

Definition page_entry (id : string) : Item :=
  {| item_track := Some {| track_id := Some (lit id) |} |}.

Definition page_of (entries : list Item) : Response :=
  {| resp_items := Some entries; resp_total := None |}.

(** [f"id{n}"] *)
Definition id_n (n : nat) : string := "id" ++ pretty n.

(** [first_page_items], [second_page_items] and [responses] of
    [test_get_existing_track_ids_paginates_results]. *)
Definition first_page_items : list Item := map (fun n => page_entry (id_n n)) (seq 1 100).
Definition second_page_items : list Item := [page_entry "id101"].
Definition paginated_responses : list Response :=
  [page_of first_page_items; page_of second_page_items].

(** [responses] and [track_ids] of
    [test_add_tracks_skips_existing_and_batches]. *)
Definition skip_responses : list Response := [page_of [page_entry "id1"]].
Definition skip_track_ids : list str :=
  map lit ["id1"; "id2"; "id2"; "id3"; "id4"; "id5"]%string.

(** The payload of the test's only batch. *)
Definition expected_batch : list str :=
  map lit ["id2"; "id2"; "id3"; "id4"; "id5"]%string.

(** A run of 150 new identifiers, [id1] to [id150]. *)
Definition track_ids_150 : list str := map (fun n => lit (id_n n)) (seq 1 150).

(** A page whose only entry has the empty string for identifier:
    [{"items": [{"track": {"id": ""}}]}]. *)
Definition blank_id_page : Response :=
  page_of [{| item_track := Some {| track_id := Some [] |} |}].

(** A page with a blank identifier next to a proper one. *)
Definition mixed_page : Response :=
  page_of [{| item_track := Some {| track_id := Some [] |} |}; page_entry "id1"].

(** A response that has no ["items"] key: [{"total": 0}]. *)
Definition no_items_response : Response :=
  {| resp_items := None; resp_total := Some 0 |}.

(** Pages whose total counts mislead: a full page that says the playlist
    has one track, then a short page that says it has a thousand. *)
Definition page_with_total (entries : list Item) (total : Z) : Response :=
  {| resp_items := Some entries; resp_total := Some total |}.
Definition misleading_full : Response := page_with_total first_page_items 1.
Definition misleading_short : Response := page_with_total second_page_items 1000.
Definition misleading_responses : list Response :=
  [misleading_full; misleading_short; blank_id_page].

Definition dummy : str := lit "dummy".

(** A world around a fresh stand-in client. *)
Definition dummy_world (responses : list Response) : world DummySpotifyClient :=
  World (dummy_init responses) [].

(** A client that accepts one append call, on an empty playlist. *)
Definition quota_one : QuotaClient := Quota (dummy_init []) 1.

(** The content written to [tracks.txt] by
    [test_read_track_ids_ignores_comments_and_whitespace]. *)
Definition nl : string := String (ascii_of_nat 10) EmptyString.
Definition tracks_txt : str :=
  lit (nl
    ++ "            # This is a comment line" ++ nl
    ++ nl
    ++ "            6rqhFgbbKwnb9MLmUQDhG6" ++ nl
    ++ "            spotify:track:60nZcImufyMA1MKQY3dcCH" ++ nl
    ++ "            invalid:format:should:just:take:last" ++ nl
    ++ "            ").

(** ** main

    [pathlib] and [spotipy] are libraries: what [main] takes from them is a
    parameter of this section.  The file system holds the files that can
    be read, by the path [pathlib] makes of a string. *)

(** The keyword arguments of [SpotifyOAuth(...)]. *)
Record SpotifyOAuth := {
  oauth_client_id : option str;
  oauth_client_secret : option str;
  oauth_redirect_uri : option str;
  oauth_scope : str;
  oauth_cache_path : str;
  oauth_username : option str
}.

(** How the process ends: [sys.exit(status)] after a line on standard
    error, before any client exists; or the end of [main], by return or by
    an exception that nothing catches, with the client it made. *)
Inductive main_end (S : Type) :=
| SysExit (status : Z) (stderr : str)
| Finished (o : outcome unit) (w : world S).
Arguments SysExit {S} _ _.
Arguments Finished {S} _ _.

(** [bool(v)] for the value of [os.environ.get(key)]. *)
Definition truthy_opt (v : option str) : bool :=
  match v with
  | Some s => Py.truthy s
  | None => false
  end.

(** [tracks_file.exists()] *)
Definition path_exists (fs : filesystem) (file_path : str) : bool :=
  bool_decide (is_Some (fs !! file_path)).

Definition msg_missing_configuration : str :=
  lit "Missing configuration. Please set SPOTIPY_CLIENT_ID, SPOTIPY_CLIENT_SECRET, "
  ++ lit "SPOTIPY_REDIRECT_URI, SPOTIFY_USERNAME and SPOTIFY_PLAYLIST_ID environment variables.".
Definition msg_no_tracks_file (tracks_file : str) : str :=
  lit "Tracks file '" ++ tracks_file ++ lit "' does not exist.".
Definition msg_no_track_ids : str :=
  lit "No track IDs found in input file; nothing to do.".

Section Main.

Context {S : Type} `{Spotify S}.

(** [Path(s)], as the string that names the file. *)
Variable Path : str -> str.
(** [str(Path.home() / ".cache/spotify_token")] *)
Variable cache_path : str.
(** [spotipy.Spotify(auth_manager=oauth)] *)
Variable Spotify_new : SpotifyOAuth -> S.

Definition main (fuel : nat) (environ : gmap (list N) (list N)) (fs : filesystem)
    : main_end S :=
  let client_id := environ !! lit "SPOTIPY_CLIENT_ID" in
  let client_secret := environ !! lit "SPOTIPY_CLIENT_SECRET" in
  let redirect_uri := environ !! lit "SPOTIPY_REDIRECT_URI" in
  let username := environ !! lit "SPOTIFY_USERNAME" in
  let playlist_id := environ !! lit "SPOTIFY_PLAYLIST_ID" in
  let tracks_file := Path (default (lit "tracks.txt") (environ !! lit "TRACKS_FILE")) in
  if negb (forallb truthy_opt
             [client_id; client_secret; redirect_uri; username; playlist_id])
  then SysExit 1 msg_missing_configuration
  else if negb (path_exists fs tracks_file)
  then SysExit 1 (msg_no_tracks_file tracks_file)
  else
    let scope := lit "playlist-modify-public playlist-modify-private" in
    let oauth :=
      {| oauth_client_id := client_id;
         oauth_client_secret := client_secret;
         oauth_redirect_uri := redirect_uri;
         oauth_scope := scope;
         oauth_cache_path := cache_path;
         oauth_username := username |} in
    let sp := Spotify_new oauth in
    let w := World sp [] in
    match read_track_ids fs tracks_file with
    | inl e => Finished (Raise e) w
    | inr track_ids =>
        match track_ids with
        | [] => let '(o, w') := print msg_no_track_ids w in Finished o w'
        | _ :: _ =>
            let '(o, w') :=
              add_tracks_to_playlist fuel (default [] playlist_id) track_ids w in
            Finished o w'
        end
    end.

End Main.

(** The five variables [main] requires. *)
Definition required_variables : list str :=
  map lit ["SPOTIPY_CLIENT_ID"; "SPOTIPY_CLIENT_SECRET"; "SPOTIPY_REDIRECT_URI";
           "SPOTIFY_USERNAME"; "SPOTIFY_PLAYLIST_ID"]%string.

(** The file [main] reads. *)
Definition tracks_file_of (Path : str -> str) (environ : gmap (list N) (list N))
    : str :=
  Path (default (lit "tracks.txt") (environ !! lit "TRACKS_FILE")).

(** The client [main] makes. *)
Definition oauth_of (cache_path : str) (environ : gmap (list N) (list N))
    : SpotifyOAuth :=
  {| oauth_client_id := environ !! lit "SPOTIPY_CLIENT_ID";
     oauth_client_secret := environ !! lit "SPOTIPY_CLIENT_SECRET";
     oauth_redirect_uri := environ !! lit "SPOTIPY_REDIRECT_URI";
     oauth_scope := lit "playlist-modify-public playlist-modify-private";
     oauth_cache_path := cache_path;
     oauth_username := environ !! lit "SPOTIFY_USERNAME" |}.

(** ** Playlists served by offset

    The pages of a playlist [P] as a service that honours [offset] and
    [limit] cuts them: the requests of the fetch go on until a page is
    short, so the last page asked for is the one at the first offset that
    leaves fewer than [limit] items. *)
Definition item_pages (P : list Item) : list (list Item) :=
  map (fun offset => Py.slice P offset (offset + limit))
      (Py.range 0 (Py.len P + 1) limit).

(** ** Track files

    What a track file is made of, line by line: a plain identifier, a
    [spotify:track:] URI, a comment, or nothing; with blanks around. *)
Inductive entry :=
| Plain (id : str)
| Uri (id : str)
| Comment (text : str)
| Blank.

Definition entry_text (e : entry) : str :=
  match e with
  | Plain id => id
  | Uri id => lit "spotify:track:" ++ id
  | Comment text => hash :: text
  | Blank => []
  end.

Definition entry_id (e : entry) : option str :=
  match e with
  | Plain id | Uri id => Some id
  | Comment _ | Blank => None
  end.

(** A line of the file: indentation, the entry, trailing blanks, and the
    line feed. *)
Definition render_line (l : str * entry * str) : str :=
  l.1.1 ++ entry_text l.1.2 ++ l.2 ++ [10%N].

Definition render (ls : list (str * entry * str)) : str :=
  concat (map render_line ls).

(** Blanks that do not break the line. *)
Definition is_blank (c : codepoint) : bool :=
  Py.isspace c && negb (c =? 10)%N && negb (c =? 13)%N.

(** An identifier that can stand on a line of its own: not empty, without
    colon or line break, with no whitespace at either end and no comment
    marker in front. *)
Definition plain_id (id : str) : Prop :=
  (colon ∉ id) /\ (10%N ∉ id) /\ (13%N ∉ id)
  /\ exists a b u v, id = a :: u /\ id = v ++ [b]
       /\ Py.isspace a = false /\ Py.isspace b = false /\ a <> hash.

Definition well_formed_line (l : str * entry * str) : Prop :=
  forallb is_blank l.1.1 = true /\ forallb is_blank l.2 = true
  /\ match l.1.2 with
     | Plain id | Uri id => plain_id id
     | Comment text => (10%N ∉ text) /\ (13%N ∉ text)
     | Blank => True
     end.

(** ** A client whose page requests fail after a while

    It serves [pages_left] pages like the stand-in client; every later
    page request raises, as the remote service does once the token has
    expired. *)

Record ExpiringClient := Expiring {
  expiring_pages : DummySpotifyClient;
  pages_left : nat
}.

Definition expiring_playlist_items (c : ExpiringClient) (playlist_id : str)
    (offset limit : Z) (fields : str) : (exn + Response) * ExpiringClient :=
  match pages_left c with
  | O => (inl (SpotifyException 401 (lit "token expired")), c)
  | Datatypes.S n =>
      let '(r, d) := dummy_playlist_items (expiring_pages c) playlist_id offset limit fields in
      (r, Expiring d n)
  end.

Definition expiring_playlist_add_items (c : ExpiringClient) (playlist_id : str)
    (items : list str) : (exn + unit) * ExpiringClient :=
  let '(r, d) := dummy_playlist_add_items (expiring_pages c) playlist_id items in
  (r, Expiring d (pages_left c)).

#[export] Instance expiring_spotify : Spotify ExpiringClient := {
  playlist_items := expiring_playlist_items;
  playlist_add_items := expiring_playlist_add_items
}.

(** An environment with everything [main] requires, and a file system
    with the track file of the tests. *)
Definition full_environ : gmap (list N) (list N) :=
  list_to_map
    [(lit "SPOTIPY_CLIENT_ID", lit "client");
     (lit "SPOTIPY_CLIENT_SECRET", lit "secret");
     (lit "SPOTIPY_REDIRECT_URI", lit "http://localhost:8888/callback");
     (lit "SPOTIFY_USERNAME", lit "user");
     (lit "SPOTIFY_PLAYLIST_ID", lit "dummy")].

Definition tracks_fs : gmap (list N) (list N) :=
  {[ lit "tracks.txt" := tracks_txt ]}.

(** A track file with a comment and a blank line only. *)
Definition comments_fs : gmap (list N) (list N) :=
  {[ lit "tracks.txt" := lit "# nothing yet" ++ [10%N; 10%N] ]}.

Definition token_cache : str := lit "/home/user/.cache/spotify_token".

(** A small track file: an indented comment, a blank line, a plain
    identifier followed by a blank, and a URI after a tab. *)
Definition sample_lines : list (str * entry * str) :=
  [(lit "  ", Comment (lit " my tracks"), []);
   ([], Blank, lit " ");
   ([], Plain (lit "ab"), lit " ");
   ([9%N], Uri (lit "cd"), [])].

(** * Properties *)

(** ** The embedding at work *)

Example lit_id1 : lit "id1" = [105; 100; 49]%N.
Proof. reflexivity. Qed.

Example strip_example : Py.strip (lit "  ab c ") = lit "ab c".
Proof. reflexivity. Qed.

Example split_example :
  Py.split 58 (lit "spotify:track:abc") = [lit "spotify"; lit "track"; lit "abc"].
Proof. reflexivity. Qed.

Example split_trailing : Py.split 58 (lit "a:") = [lit "a"; []].
Proof. reflexivity. Qed.

Example lines_example :
  Py.iter_file (lit "a" ++ [13; 10] ++ lit "b" ++ [13] ++ lit "c")%N
  = [lit "a" ++ [10]; lit "b" ++ [10]; lit "c"]%N.
Proof. reflexivity. Qed.

Example range_150 : Py.range 0 150 100 = [0; 100].
Proof. reflexivity. Qed.

Example range_200 : Py.range 0 200 100 = [0; 100].
Proof. reflexivity. Qed.

Example range_0 : Py.range 0 0 100 = [].
Proof. reflexivity. Qed.

Example str_of_int_150 : Py.str_of_int 150 = lit "150".
Proof. reflexivity. Qed.

Example test_read_track_ids_ignores_comments_and_whitespace :
  read_track_ids {[ lit "tracks.txt" := tracks_txt ]} (lit "tracks.txt")
  = inr (map lit ["6rqhFgbbKwnb9MLmUQDhG6"; "60nZcImufyMA1MKQY3dcCH"; "last"]%string).
Proof. vm_compute. reflexivity. Qed.

Example normalized_tracks_txt :
  normalized tracks_txt
  = map lit ["6rqhFgbbKwnb9MLmUQDhG6"; "60nZcImufyMA1MKQY3dcCH"; "last"]%string.
Proof. vm_compute. reflexivity. Qed.

Example test_add_tracks_skips_existing_and_batches :
  exists w,
    add_tracks_to_playlist 1 dummy skip_track_ids (dummy_world skip_responses)
    = (Return tt, w)
    /\ added_batches (client w) = [map lit ["id2"; "id2"; "id3"; "id4"; "id5"]%string].
Proof. eexists. split; vm_compute; reflexivity. Qed.

(** ** Running computations *)

Section Running.

Context {S : Type} `{Spotify S}.

Lemma bind_return {A B} (m : M S A) (k : A -> M S B) w a w' :
  m w = (Return a, w') -> bind m k w = k a w'.
Proof. unfold bind. intros ->. reflexivity. Qed.

Lemma bind_raise {A B} (m : M S A) (k : A -> M S B) w e w' :
  m w = (Raise e, w') -> bind m k w = (Raise e, w').
Proof. unfold bind. intros ->. reflexivity. Qed.

Lemma bind_out_of_fuel {A B} (m : M S A) (k : A -> M S B) w w' :
  m w = (OutOfFuel, w') -> bind m k w = (OutOfFuel, w').
Proof. unfold bind. intros ->. reflexivity. Qed.

Lemma call_playlist_items_ok pid offset lim flds (w : world S) r c :
  playlist_items (client w) pid offset lim flds = (inr r, c) ->
  call_playlist_items pid offset lim flds w
  = (Return r, World c (log w ++ [CallPlaylistItems pid offset lim flds])).
Proof. unfold call_playlist_items, record. intros ->. reflexivity. Qed.

Lemma call_playlist_add_items_ok pid batch (w : world S) c :
  playlist_add_items (client w) pid batch = (inr tt, c) ->
  call_playlist_add_items pid batch w
  = (Return tt, World c (log w ++ [CallPlaylistAddItems pid batch])).
Proof. unfold call_playlist_add_items, record. intros ->. reflexivity. Qed.

Lemma call_playlist_add_items_fails pid batch (w : world S) e c :
  playlist_add_items (client w) pid batch = (inl e, c) ->
  call_playlist_add_items pid batch w
  = (Raise e, World c (log w ++ [CallPlaylistAddItems pid batch])).
Proof. unfold call_playlist_add_items, record. intros ->. reflexivity. Qed.

(** A page request ends in a value or an exception and logs itself. *)
Lemma call_playlist_items_cases pid offset lim flds (w : world S) :
  exists o c,
    call_playlist_items pid offset lim flds w
    = (o, World c (log w ++ [CallPlaylistItems pid offset lim flds]))
    /\ o <> OutOfFuel.
Proof.
  unfold call_playlist_items, record.
  destruct (playlist_items (client w) pid offset lim flds) as [[e|r] c];
    eexists _, c; split; try reflexivity; discriminate.
Qed.

Lemma call_playlist_add_items_cases pid batch (w : world S) :
  exists o c,
    call_playlist_add_items pid batch w
    = (o, World c (log w ++ [CallPlaylistAddItems pid batch]))
    /\ o <> OutOfFuel.
Proof.
  unfold call_playlist_add_items, record.
  destruct (playlist_add_items (client w) pid batch) as [[e|[]] c];
    eexists _, c; split; try reflexivity; discriminate.
Qed.

End Running.

(** ** The snapshot *)

Lemma add_item_union (X : gset str) item : add_item X item = X ∪ add_item ∅ item.
Proof.
  unfold add_item. destruct item as [[[[id|]]|]]; simpl; try set_solver.
  destruct (Py.truthy id); set_solver.
Qed.

Lemma foldl_add_item (X : gset str) items :
  foldl add_item X items = X ∪ item_ids items.
Proof.
  unfold item_ids. revert X.
  induction items as [|item items IH]; intros X; simpl.
  - set_solver.
  - rewrite (IH (add_item X item)), (IH (add_item ∅ item)).
    rewrite (add_item_union X item). set_solver.
Qed.

Lemma add_item_listed item :
  add_item ∅ item
  = list_to_set (filter (fun id => id <> []) (from_option (fun id => [id]) [] (listed_id item))).
Proof.
  unfold add_item, listed_id.
  destruct item as [[[[id|]]|]]; simpl; try reflexivity.
  destruct id as [|c id]; simpl; [reflexivity | set_solver].
Qed.

Lemma item_ids_listed items :
  item_ids items = list_to_set (filter (fun id => id <> []) (omap listed_id items)).
Proof.
  induction items as [|item items IH].
  - reflexivity.
  - unfold item_ids in *. simpl. rewrite foldl_add_item. fold (item_ids items).
    unfold item_ids. rewrite IH, add_item_listed.
    destruct (listed_id item) as [id|]; simpl.
    + rewrite !filter_cons, filter_nil.
      destruct (decide (id <> [])); simpl; set_solver.
    + set_solver.
Qed.

Lemma after_pages_snapshot X pages :
  after_pages X pages = X ∪ snapshot_of_nonempty pages.
Proof.
  unfold snapshot_of_nonempty, listed_ids, after_pages. revert X.
  induction pages as [|r pages IH]; intros X; simpl.
  - set_solver.
  - rewrite IH, foldl_add_item, item_ids_listed.
    rewrite omap_app, filter_app, list_to_set_app_L. set_solver.
Qed.

(** ** The pagination loop *)

Lemma requests_succ pid offset n :
  requests pid offset (Datatypes.S n)
  = CallPlaylistItems pid offset limit fields :: requests pid (offset + limit) n.
Proof.
  unfold requests. rewrite <- cons_seq, <- seq_shift. simpl.
  rewrite Z.add_0_r. f_equal. rewrite map_map. apply map_ext. intros k.
  f_equal. lia.
Qed.

Lemma length_requests pid offset n : length (requests pid offset n) = n.
Proof. unfold requests. rewrite length_map. apply length_seq. Qed.

Lemma page_requests_requests pid offset n :
  page_requests (requests pid offset n)
  = map (fun k => (pid, offset + Z.of_nat k * limit, limit, fields)) (seq 0 n).
Proof.
  unfold page_requests, requests. induction (seq 0 n) as [|k ks IH]; simpl.
  - reflexivity.
  - f_equal. exact IH.
Qed.

Lemma append_calls_requests pid offset n :
  append_calls (requests pid offset n) = [].
Proof.
  unfold append_calls, requests. induction (seq 0 n) as [|k ks IH]; simpl.
  - reflexivity.
  - exact IH.
Qed.

Lemma add_item_no_empty (X : gset str) item : [] ∉ X -> [] ∉ add_item X item.
Proof.
  unfold add_item. destruct item as [[[[id|]]|]]; simpl; auto.
  destruct id as [|c id]; simpl; auto. set_solver.
Qed.

Lemma foldl_add_item_no_empty (X : gset str) items :
  [] ∉ X -> [] ∉ foldl add_item X items.
Proof.
  revert X. induction items as [|item items IH]; intros X HX; simpl; auto.
  apply IH, add_item_no_empty, HX.
Qed.

Section Pagination.

Context {S : Type} `{Spotify S}.

(** Pages of [limit] items or more keep the loop going; the first
    shorter one ends it. *)
Lemma get_existing_loop_serves full : forall short fuel (c c' : S) pid X offset lg,
  Forall (fun r => limit <= Py.len (get_items r)) full ->
  Py.len (get_items short) < limit ->
  serves c pid offset (full ++ [short]) c' ->
  (length full < fuel)%nat ->
  get_existing_loop fuel pid X offset (World c lg)
  = (Return (after_pages X (full ++ [short])),
     World c' (lg ++ requests pid offset (length full + 1))).
Proof.
  induction full as [|r full IH]; intros short fuel c c' pid X offset lg Hfull Hshort Hs Hfuel.
  - destruct fuel as [|fuel]; [simpl in Hfuel; lia|].
    destruct Hs as (c1 & Hcall & ->). simpl.
    erewrite bind_return by (apply call_playlist_items_ok; exact Hcall).
    apply Z.ltb_lt in Hshort. rewrite Hshort.
    cbn [length Nat.add]. rewrite requests_succ. reflexivity.
  - destruct fuel as [|fuel]; [simpl in Hfuel; lia|].
    destruct Hs as (c1 & Hcall & Hs).
    apply Forall_cons in Hfull as [Hr Hfull].
    cbn [get_existing_loop].
    erewrite bind_return by (apply call_playlist_items_ok; exact Hcall).
    cbn zeta. apply Z.ltb_ge in Hr. rewrite Hr.
    rewrite (IH short fuel c1 c' pid _ (offset + limit) _ Hfull Hshort Hs)
      by (simpl in Hfuel; lia).
    cbn [client log length Nat.add app after_pages foldl].
    rewrite requests_succ, <- app_assoc. reflexivity.
Qed.

(** Whatever the client answers, the loop issues page requests only, at
    offsets that grow by [limit], and never puts the empty string into
    the set. *)
Lemma get_existing_loop_log fuel : forall pid X offset (w : world S),
  exists n,
    (n <= fuel)%nat
    /\ log (get_existing_loop fuel pid X offset w).2 = log w ++ requests pid offset n
    /\ forall E, (get_existing_loop fuel pid X offset w).1 = Return E ->
                 [] ∉ X -> [] ∉ E.
Proof.
  induction fuel as [|fuel IH]; intros pid X offset w.
  - exists 0%nat. simpl. rewrite app_nil_r. repeat split; auto. discriminate.
  - destruct (call_playlist_items_cases pid offset limit fields w) as (o & c & Hcall & Hfuel).
    cbn [get_existing_loop]. destruct o as [r|e|]; [| |congruence].
    + erewrite bind_return by exact Hcall. cbn zeta.
      destruct (Py.len (get_items r) <? limit).
      * exists 1%nat. rewrite requests_succ. simpl. repeat split; [lia|].
        intros E [= <-]. apply foldl_add_item_no_empty.
      * destruct (IH pid (foldl add_item X (get_items r)) (offset + limit)
                    (World c (log w ++ [CallPlaylistItems pid offset limit fields])))
          as (n & Hn & Hlog & Hset).
        exists (Datatypes.S n). rewrite requests_succ, Hlog. simpl.
        rewrite <- app_assoc. repeat split; [lia|].
        intros E HE HX. apply (Hset E HE), foldl_add_item_no_empty, HX.
    + erewrite bind_raise by exact Hcall.
      exists 1%nat. rewrite requests_succ. simpl. repeat split; [lia|discriminate].
Qed.

End Pagination.

(** ** Cutting the residue into batches *)

Lemma num_batches_succ n :
  num_batches (Datatypes.S n) = Datatypes.S (num_batches (Datatypes.S n - 100)).
Proof.
  unfold num_batches, ceil_div, batch_size.
  rewrite <- Z2Nat.inj_succ by (apply Z.div_pos; lia).
  f_equal. Z.div_mod_to_equations. lia.
Qed.

Lemma batches_alt l :
  batches l
  = map (fun i : nat => take 100 (drop (100 * i) l)) (seq 0 (num_batches (length l))).
Proof.
  unfold batches, batch_at, Py.range, Py.slice, Py.len, num_batches, ceil_div.
  rewrite map_map.
  replace ((Z.of_nat (length l) - 0 + batch_size - 1) `div` batch_size)
    with ((Z.of_nat (length l) + batch_size - 1) `div` batch_size) by (f_equal; lia).
  apply map_ext. intros i. unfold batch_size. f_equal; [lia|]. f_equal. lia.
Qed.

Lemma batches_nil : batches [] = [].
Proof. reflexivity. Qed.

Lemma batches_cons l :
  l <> [] -> batches l = take 100 l :: batches (drop 100 l).
Proof.
  intros Hl. rewrite !batches_alt.
  destruct l as [|x l]; [congruence|].
  cbn [length]. rewrite num_batches_succ, length_drop.
  cbn [length]. rewrite <- cons_seq, <- seq_shift. cbn [map].
  f_equal. rewrite map_map. apply map_ext. intros i.
  rewrite drop_drop. f_equal. f_equal. lia.
Qed.

(** Induction along the batches. *)
Lemma batches_ind (P : list str -> list (list str) -> Prop) :
  P [] [] ->
  (forall l, l <> [] ->
     P (drop 100 l) (batches (drop 100 l)) ->
     P l (take 100 l :: batches (drop 100 l))) ->
  forall l, P l (batches l).
Proof.
  intros Hnil Hcons l. remember (length l) as n eqn:Hn. revert l Hn.
  induction n as [n IH] using lt_wf_ind. intros l ->.
  destruct l as [|x l]; [exact Hnil|].
  rewrite batches_cons by discriminate. apply Hcons; [discriminate|].
  apply (IH (length (drop 100 (x :: l)))); [|reflexivity].
  rewrite length_drop. simpl. lia.
Qed.

Lemma concat_batches l : concat (batches l) = l.
Proof.
  apply (batches_ind (fun l bs => concat bs = l)); [reflexivity|].
  intros l' _ IH. cbn [concat]. rewrite IH. apply take_drop.
Qed.

Lemma Forall_batches l :
  Forall (fun b => (1 <= length b <= 100)%nat) (batches l).
Proof.
  apply (batches_ind (fun l bs => Forall (fun b => (1 <= length b <= 100)%nat) bs)).
  - constructor.
  - intros l' Hl' IH. constructor; [|exact IH].
    rewrite length_take. destruct l' as [|x l']; [congruence|]. cbn [length]. lia.
Qed.

Lemma length_batches l : length (batches l) = num_batches (length l).
Proof. rewrite batches_alt, length_map. apply length_seq. Qed.

Lemma batches_150 l :
  length l = 150%nat -> batches l = [take 100 l; drop 100 l].
Proof.
  intros Hl.
  rewrite batches_cons by (intros ->; discriminate).
  rewrite batches_cons by (intros Hd; apply (f_equal length) in Hd;
                           rewrite length_drop, Hl in Hd; discriminate).
  rewrite (take_ge (drop 100 l)) by (rewrite length_drop; lia).
  rewrite (drop_ge (drop 100 l)) by (rewrite length_drop; lia).
  reflexivity.
Qed.

Lemma batches_short l :
  l <> [] -> (length l <= 100)%nat -> batches l = [l].
Proof.
  intros Hl Hlen. rewrite batches_cons by exact Hl.
  rewrite take_ge, drop_ge by lia. reflexivity.
Qed.

Lemma append_calls_batch_events pid bs : append_calls (batch_events pid bs) = bs.
Proof.
  induction bs as [|b bs IH]; [reflexivity|].
  unfold batch_events. rewrite bind_cons. fold (batch_events pid bs).
  unfold append_calls in *. rewrite omap_app, IH. reflexivity.
Qed.

Lemma page_requests_batch_events pid bs : page_requests (batch_events pid bs) = [].
Proof.
  induction bs as [|b bs IH]; [reflexivity|].
  unfold batch_events. rewrite bind_cons. fold (batch_events pid bs).
  unfold page_requests in *. rewrite omap_app, IH. reflexivity.
Qed.

Lemma batch_events_app pid bs1 bs2 :
  batch_events pid (bs1 ++ bs2) = batch_events pid bs1 ++ batch_events pid bs2.
Proof. unfold batch_events. apply bind_app. Qed.

(** ** The batch loop *)

Section Appending.

Context {S : Type} `{Spotify S}.

Lemma batches_batch_at l :
  batches l = map (batch_at l) (Py.range 0 (Py.len l) batch_size).
Proof. reflexivity. Qed.

Lemma add_batch_ok pid l start (w : world S) c :
  playlist_add_items (client w) pid (batch_at l start) = (inr tt, c) ->
  add_batch pid l start w
  = (Return tt, World c (log w ++ batch_events pid [batch_at l start])).
Proof.
  intros Hcall. unfold add_batch. fold (batch_at l start).
  erewrite bind_return by (apply call_playlist_add_items_ok; exact Hcall).
  unfold print, record. cbn [client log batch_events mbind list_bind app].
  rewrite <- app_assoc. reflexivity.
Qed.

Lemma add_batch_fails pid l start (w : world S) e c :
  playlist_add_items (client w) pid (batch_at l start) = (inl e, c) ->
  add_batch pid l start w
  = (Raise e, World c (log w ++ [CallPlaylistAddItems pid (batch_at l start)])).
Proof.
  intros Hcall. unfold add_batch. fold (batch_at l start).
  erewrite bind_raise by (apply call_playlist_add_items_fails; exact Hcall).
  reflexivity.
Qed.

(** When the client accepts every batch, the loop gets through all of
    them. *)
Lemma for_each_accepts pid l starts : forall (c c' : S) lg,
  accepts c pid (map (batch_at l) starts) c' ->
  for_each starts (add_batch pid l) (World c lg)
  = (Return tt, World c' (lg ++ batch_events pid (map (batch_at l) starts))).
Proof.
  induction starts as [|start starts IH]; intros c c' lg Hacc.
  - simpl in Hacc. subst c'. simpl. rewrite app_nil_r. reflexivity.
  - destruct Hacc as (c1 & Hcall & Hacc). cbn [for_each].
    erewrite bind_return by (apply add_batch_ok; exact Hcall).
    rewrite (IH _ _ _ Hacc). cbn [log map].
    rewrite <- app_assoc, <- batch_events_app. reflexivity.
Qed.

(** When the client refuses a batch, the loop ends there, with the
    exception of the refused call. *)
Lemma for_each_refused pid l starts : forall start rest (c c1 c2 : S) lg e,
  accepts c pid (map (batch_at l) starts) c1 ->
  playlist_add_items c1 pid (batch_at l start) = (inl e, c2) ->
  for_each (starts ++ start :: rest) (add_batch pid l) (World c lg)
  = (Raise e,
     World c2 (lg ++ batch_events pid (map (batch_at l) starts)
                  ++ [CallPlaylistAddItems pid (batch_at l start)])).
Proof.
  induction starts as [|s starts IH]; intros start rest c c1 c2 lg e Hacc Hfail.
  - simpl in Hacc. subst c1. cbn [app for_each].
    erewrite bind_raise by (apply add_batch_fails; exact Hfail).
    reflexivity.
  - destruct Hacc as (c0 & Hcall & Hacc). cbn [app for_each].
    erewrite bind_return by (apply add_batch_ok; exact Hcall).
    rewrite (IH _ _ _ _ _ _ _ Hacc Hfail). cbn [log map].
    change (batch_at l s :: map (batch_at l) starts)
      with ([batch_at l s] ++ map (batch_at l) starts).
    rewrite batch_events_app, <- !app_assoc. reflexivity.
Qed.

(** Whatever the client does, the loop issues append calls only: the
    batches in order, up to the first refused one, and all of them when it
    returns. *)
Lemma for_each_log pid l starts : forall (w : world S),
  exists evs k,
    log (for_each starts (add_batch pid l) w).2 = log w ++ evs
    /\ page_requests evs = []
    /\ append_calls evs = take k (map (batch_at l) starts)
    /\ (for_each starts (add_batch pid l) w).1 <> OutOfFuel
    /\ ((for_each starts (add_batch pid l) w).1 = Return tt ->
        append_calls evs = map (batch_at l) starts).
Proof.
  induction starts as [|start starts IH]; intros w.
  - exists [], 0%nat. simpl. rewrite app_nil_r. repeat split; auto; discriminate.
  - cbn [for_each].
    destruct (playlist_add_items (client w) pid (batch_at l start))
      as [[e|[]] c] eqn:Hcall.
    + erewrite bind_raise by (apply add_batch_fails; exact Hcall).
      exists [CallPlaylistAddItems pid (batch_at l start)], 1%nat.
      cbn [fst snd log map]. repeat split; discriminate.
    + erewrite bind_return by (apply add_batch_ok; exact Hcall).
      destruct (IH (World c (log w ++ batch_events pid [batch_at l start])))
        as (evs & k & Hlog & Hpages & Hcalls & Hfuel & Hall).
      exists (batch_events pid [batch_at l start] ++ evs), (Datatypes.S k).
      rewrite Hlog. cbn [log map]. rewrite <- app_assoc.
      unfold page_requests, append_calls in *.
      rewrite !omap_app. fold (page_requests (batch_events pid [batch_at l start])).
      fold (append_calls (batch_events pid [batch_at l start])).
      rewrite page_requests_batch_events, append_calls_batch_events, Hpages, Hcalls.
      repeat split; auto.
      intros Hret. cbn [app]. f_equal. rewrite <- Hcalls. apply Hall, Hret.
Qed.

End Appending.

(** ** add_tracks_to_playlist, step by step *)

Section Adding.

Context {S : Type} `{Spotify S}.

Lemma add_tracks_fetch_ok fuel pid xs (w w1 : world S) E :
  get_existing_track_ids fuel pid w = (Return E, w1) ->
  add_tracks_to_playlist fuel pid xs w = after_fetch pid (to_add E xs) w1.
Proof.
  intros Hfetch. unfold add_tracks_to_playlist.
  erewrite bind_return by exact Hfetch. reflexivity.
Qed.

Lemma add_tracks_fetch_stops fuel pid xs (w : world S) :
  (forall E, (get_existing_track_ids fuel pid w).1 <> Return E) ->
  add_tracks_to_playlist fuel pid xs w
  = (match (get_existing_track_ids fuel pid w).1 with
     | Raise e => Raise e
     | _ => OutOfFuel
     end, (get_existing_track_ids fuel pid w).2).
Proof.
  intros Hno. unfold add_tracks_to_playlist, bind.
  destruct (get_existing_track_ids fuel pid w) as [[E|e|] w1]; simpl in *.
  - destruct (Hno E). reflexivity.
  - reflexivity.
  - reflexivity.
Qed.

Lemma after_fetch_log pid residue (w1 : world S) :
  exists evs k,
    log (after_fetch pid residue w1).2 = log w1 ++ evs
    /\ page_requests evs = []
    /\ append_calls evs = take k (batches residue)
    /\ (after_fetch pid residue w1).1 <> OutOfFuel
    /\ ((after_fetch pid residue w1).1 = Return tt ->
        append_calls evs = batches residue).
Proof.
  destruct residue as [|x residue].
  - exists [Stdout msg_nothing_new], 0%nat. simpl. repeat split; auto; discriminate.
  - set (r := x :: residue). unfold after_fetch. fold r.
    change (match r with [] => print msg_nothing_new | _ :: _ =>
              print (msg_adding (Py.len r) pid) ;;;
              for_each (Py.range 0 (Py.len r) batch_size) (add_batch pid r) ;;;
              print msg_all_added end)
      with (print (S:=S) (msg_adding (Py.len r) pid) ;;;
            for_each (Py.range 0 (Py.len r) batch_size) (add_batch pid r) ;;;
            print msg_all_added).
    set (w2 := World (client w1) (log w1 ++ [Stdout (msg_adding (Py.len r) pid)])).
    rewrite (bind_return _ _ w1 tt w2) by reflexivity.
    destruct (for_each_log pid r (Py.range 0 (Py.len r) batch_size) w2)
      as (evs & k & Hlog & Hpages & Hcalls & Hfuel & Hall).
    fold (batch_at r) in Hcalls, Hall. rewrite <- batches_batch_at in Hcalls, Hall.
    unfold bind.
    destruct (for_each (Py.range 0 (Py.len r) batch_size) (add_batch pid r) w2)
      as [[[]|e|] w3]; cbn [fst snd] in *.
    + exists (Stdout (msg_adding (Py.len r) pid) :: evs ++ [Stdout msg_all_added]),
        (length (batches r)).
      unfold print, record. cbn [fst snd log client]. rewrite Hlog.
      unfold w2. cbn [log]. rewrite <- !app_assoc. cbn [app].
      unfold page_requests, append_calls in *. cbn [omap list_omap page_request append_call].
      change (list_omap _ _ ?f ?l) with (omap f l).
      rewrite !omap_app, Hpages. cbn [omap list_omap page_request append_call app].
      rewrite app_nil_r, Hall, firstn_all by reflexivity.
      repeat split; auto; discriminate.
    + exists (Stdout (msg_adding (Py.len r) pid) :: evs), k.
      rewrite Hlog. unfold w2. cbn [log]. rewrite <- !app_assoc. cbn [app].
      unfold page_requests, append_calls in *. cbn [omap list_omap page_request append_call].
      change (list_omap _ _ ?f ?l) with (omap f l).
      repeat split; auto; discriminate.
    + congruence.
Qed.

End Adding.

(** ** The residue *)

Lemma occurrences_cons t x l :
  occurrences t (x :: l)
  = if decide (x = t) then Datatypes.S (occurrences t l) else occurrences t l.
Proof.
  unfold occurrences. rewrite filter_cons. destruct (decide (x = t)); reflexivity.
Qed.

Lemma occurrences_sublist t l1 l2 :
  l1 `sublist_of` l2 -> (occurrences t l1 <= occurrences t l2)%nat.
Proof.
  induction 1 as [|x l1 l2 _ IH|x l1 l2 _ IH]; rewrite ?occurrences_cons;
    repeat case_decide; lia.
Qed.

Lemma to_add_cons E x xs :
  to_add E (x :: xs) = if decide (x ∈ E) then to_add E xs else x :: to_add E xs.
Proof.
  unfold to_add. rewrite filter_cons.
  destruct (decide (x ∉ E)) as [Hx|Hx], (decide (x ∈ E)); try reflexivity; tauto.
Qed.

Lemma to_add_is_residue E xs : is_residue E xs (to_add E xs).
Proof.
  split; [apply sublist_filter|].
  intros t. induction xs as [|x xs IH].
  - unfold to_add. rewrite filter_nil. destruct (decide (t ∈ E)); reflexivity.
  - rewrite to_add_cons.
    destruct (decide (x ∈ E)) as [Hx|Hx]; rewrite !occurrences_cons, IH;
      repeat case_decide; subst; try reflexivity; tauto.
Qed.

(** The three conditions leave no choice: the residue is the filtered
    input. *)
Lemma is_residue_unique E xs r : is_residue E xs r -> r = to_add E xs.
Proof.
  intros [Hsub Hocc]. induction Hsub as [|x r xs Hsub IH|x r xs Hsub IH].
  - reflexivity.
  - assert (Hx : x ∉ E).
    { intros Hx. specialize (Hocc x). rewrite occurrences_cons in Hocc.
      repeat case_decide; try congruence; tauto. }
    rewrite to_add_cons. case_decide; [tauto|]. f_equal. apply IH.
    intros t. specialize (Hocc t). rewrite !occurrences_cons in Hocc.
    repeat case_decide; subst; try tauto; lia.
  - assert (Hx : x ∈ E).
    { destruct (decide (x ∈ E)) as [|Hx]; [assumption|exfalso].
      specialize (Hocc x). rewrite occurrences_cons in Hocc.
      pose proof (occurrences_sublist x _ _ Hsub).
      repeat case_decide; try tauto; lia. }
    rewrite to_add_cons. case_decide; [|tauto]. apply IH.
    intros t. specialize (Hocc t). rewrite occurrences_cons in Hocc.
    repeat case_decide; subst; try tauto; try lia.
Qed.

Lemma to_add_nil_iff E xs : to_add E xs = [] <-> forall x, x ∈ xs -> x ∈ E.
Proof.
  induction xs as [|x xs IH].
  - split; [|reflexivity]. intros _ x Hx. inversion Hx.
  - rewrite to_add_cons. case_decide as Hx.
    + rewrite IH. split.
      * intros Hall y Hy. apply elem_of_cons in Hy as [->|Hy]; auto.
      * intros Hall y Hy. apply Hall. right. exact Hy.
    + split; [discriminate|]. intros Hall. destruct Hx. apply Hall. left.
Qed.

(** ** Normalizing the lines of the input file *)

Lemma first_non_whitespace_lstrip raw :
  first_non_whitespace raw = head (Py.lstrip raw).
Proof.
  unfold first_non_whitespace.
  induction raw as [|c raw IH]; [reflexivity|].
  cbn [List.find Py.lstrip]. destruct (Py.isspace c); [exact IH|reflexivity].
Qed.

Lemma lstrip_head s c t : Py.lstrip s = c :: t -> Py.isspace c = false.
Proof.
  induction s as [|a s IH]; [discriminate|].
  cbn [Py.lstrip]. destruct (Py.isspace a) eqn:Ha; [exact IH|].
  intros [= <- _]. exact Ha.
Qed.

Lemma lstrip_snoc u c :
  Py.isspace c = false -> Py.lstrip (u ++ [c]) = Py.lstrip u ++ [c].
Proof.
  intros Hc. induction u as [|a u IH]; cbn [app Py.lstrip].
  - rewrite Hc. reflexivity.
  - destruct (Py.isspace a); [exact IH|reflexivity].
Qed.

Lemma rstrip_cons c t :
  Py.isspace c = false -> Py.rstrip (c :: t) = c :: Py.rstrip t.
Proof.
  intros Hc. unfold Py.rstrip. cbn [rev].
  rewrite lstrip_snoc by exact Hc. apply rev_unit.
Qed.

(** Trimming keeps the first character that is not whitespace in front. *)
Lemma strip_lstrip raw :
  Py.strip raw
  = match Py.lstrip raw with [] => [] | c :: t => c :: Py.rstrip t end.
Proof.
  unfold Py.strip. destruct (Py.lstrip raw) as [|c t] eqn:Hl; [reflexivity|].
  apply rstrip_cons, (lstrip_head raw c t Hl).
Qed.

Lemma head_strip raw : head (Py.strip raw) = first_non_whitespace raw.
Proof.
  rewrite strip_lstrip, first_non_whitespace_lstrip.
  destruct (Py.lstrip raw); reflexivity.
Qed.

Lemma startswith_hash s : Py.startswith [hash] s = true <-> head s = Some hash.
Proof.
  destruct s as [|c s]; cbn [Py.startswith head].
  - split; discriminate.
  - rewrite andb_true_r, N.eqb_eq. split; [intros ->; reflexivity|intros [= ->]; reflexivity].
Qed.

Lemma contains_elem_of sep s : Py.contains sep s = true <-> sep ∈ s.
Proof.
  unfold Py.contains. rewrite existsb_exists. split.
  - intros (c & Hc & Heq). apply N.eqb_eq in Heq. subst c.
    apply list_elem_of_In, Hc.
  - intros Hs. exists sep. split; [apply list_elem_of_In, Hs|apply N.eqb_refl].
Qed.

Lemma split_nonempty sep s : Py.split sep s <> [].
Proof.
  destruct s as [|c s]; cbn [Py.split]; [discriminate|].
  destruct (c =? sep)%N; [discriminate|]. destruct (Py.split sep s); discriminate.
Qed.

Lemma split_no_sep sep t : sep ∉ t -> Py.split sep t = [t].
Proof.
  induction t as [|c t IH]; intros Ht; cbn [Py.split]; [reflexivity|].
  apply not_elem_of_cons in Ht as [Hc Ht].
  destruct (N.eqb_spec c sep) as [->|_]; [congruence|].
  rewrite (IH Ht). reflexivity.
Qed.

(** Splitting distributes over a separator. *)
Lemma split_app sep p t :
  Py.split sep (p ++ sep :: t) = Py.split sep p ++ Py.split sep t.
Proof.
  induction p as [|c p IH]; cbn [app Py.split].
  - rewrite N.eqb_refl. reflexivity.
  - destruct (c =? sep)%N; rewrite IH; [reflexivity|].
    destruct (Py.split sep p) as [|seg segs] eqn:Hp; [|reflexivity].
    destruct (split_nonempty sep p Hp).
Qed.

Lemma up_to_app sep u v : sep ∉ u -> up_to sep (u ++ sep :: v) = u.
Proof.
  induction u as [|c u IH]; intros Hu; cbn [app up_to].
  - rewrite N.eqb_refl. reflexivity.
  - apply not_elem_of_cons in Hu as [Hc Hu].
    destruct (N.eqb_spec c sep) as [->|_]; [congruence|].
    rewrite (IH Hu). reflexivity.
Qed.

Lemma after_last_app sep p t : sep ∉ t -> after_last sep (p ++ sep :: t) = t.
Proof.
  intros Ht. unfold after_last. rewrite rev_app_distr. cbn [rev].
  rewrite <- app_assoc. cbn [app].
  rewrite up_to_app; [apply rev_involutive|].
  intros Hin. apply Ht, list_elem_of_In, in_rev, list_elem_of_In, Hin.
Qed.

Lemma after_last_no_sep sep t : sep ∉ t -> after_last sep t = t.
Proof.
  intros Ht. unfold after_last.
  assert (Hrev : sep ∉ rev t).
  { intros Hin. apply Ht, list_elem_of_In, in_rev, list_elem_of_In, Hin. }
  revert Hrev. generalize (rev_involutive t). generalize (rev t) as u.
  intros u <- Hu. f_equal. clear Ht.
  induction u as [|c u IH]; [reflexivity|]. cbn [up_to].
  apply not_elem_of_cons in Hu as [Hc Hu].
  destruct (N.eqb_spec c sep) as [->|_]; [congruence|]. rewrite (IH Hu). reflexivity.
Qed.

(** The segment after the last separator is what follows an occurrence
    of the separator and holds none itself. *)
Lemma after_last_spec sep s :
  sep ∈ s ->
  exists p, s = p ++ sep :: after_last sep s /\ sep ∉ after_last sep s.
Proof.
  intros Hs. apply list_elem_of_split_r in Hs as (p & t & -> & Ht).
  exists p. rewrite after_last_app by exact Ht. split; [reflexivity|exact Ht].
Qed.

Lemma last_item_split sep s :
  sep ∈ s -> Py.last_item (Py.split sep s) = after_last sep s.
Proof.
  intros Hs. apply list_elem_of_split_r in Hs as (p & t & -> & Ht).
  rewrite after_last_app, split_app, (split_no_sep sep t) by exact Ht.
  unfold Py.last_item. apply last_last.
Qed.

Lemma read_line_normalize ids raw :
  read_line ids raw = ids ++ from_option (fun i => [i]) [] (normalize_line raw).
Proof.
  unfold read_line, normalize_line.
  pose proof (head_strip raw) as Hhead.
  destruct (Py.strip raw) as [|c line] eqn:Hline.
  - cbn [Py.truthy negb orb]. rewrite decide_True by reflexivity.
    cbn [from_option]. rewrite app_nil_r. reflexivity.
  - cbn [Py.truthy negb orb]. rewrite decide_False by discriminate.
    rewrite <- Hhead.
    destruct (Py.startswith [hash] (c :: line)) eqn:Hhash.
    + apply startswith_hash in Hhash. rewrite decide_True by exact Hhash.
      cbn [from_option]. rewrite app_nil_r. reflexivity.
    + rewrite decide_False
        by (intros Habs; apply startswith_hash in Habs; congruence).
      destruct (Py.contains colon (c :: line)) eqn:Hcolon.
      * apply contains_elem_of in Hcolon.
        destruct (decide (colon ∈ c :: line)) as [_|Hn]; [|tauto].
        rewrite last_item_split by exact Hcolon.
        destruct (after_last colon (c :: line)) as [|a seg].
        -- cbn [Py.truthy]. rewrite decide_True by reflexivity.
           cbn [from_option]. rewrite app_nil_r. reflexivity.
        -- cbn [Py.truthy]. rewrite decide_False by discriminate. reflexivity.
      * destruct (decide (colon ∈ c :: line)) as [Hin|_];
          [apply contains_elem_of in Hin; congruence|].
        cbn [Py.truthy]. rewrite decide_False by discriminate. reflexivity.
Qed.

Lemma foldl_read_line ls : forall ids,
  foldl read_line ids ls = ids ++ omap normalize_line ls.
Proof.
  induction ls as [|raw ls IH]; intros ids.
  - cbn [foldl]. rewrite app_nil_r. reflexivity.
  - cbn [foldl]. rewrite IH, read_line_normalize.
    change (omap normalize_line (raw :: ls))
      with (match normalize_line raw with
            | Some i => i :: omap normalize_line ls
            | None => omap normalize_line ls end).
    destruct (normalize_line raw); cbn [from_option];
      rewrite <- app_assoc; reflexivity.
Qed.

(** ** Runs that return *)

Section Returning.

Context {S : Type} `{Spotify S}.

Lemma for_each_returns pid l starts : forall (w : world S),
  (for_each starts (add_batch pid l) w).1 = Return tt ->
  log (for_each starts (add_batch pid l) w).2
  = log w ++ batch_events pid (map (batch_at l) starts).
Proof.
  induction starts as [|start starts IH]; intros w.
  - intros _. simpl. rewrite app_nil_r. reflexivity.
  - cbn [for_each].
    destruct (playlist_add_items (client w) pid (batch_at l start))
      as [[e|[]] c] eqn:Hcall.
    + erewrite bind_raise by (apply add_batch_fails; exact Hcall). discriminate.
    + erewrite bind_return by (apply add_batch_ok; exact Hcall).
      intros Hret. rewrite (IH _ Hret). cbn [log map].
      rewrite <- app_assoc, <- batch_events_app. reflexivity.
Qed.

(** The log of a run that had something to add and got through. *)
Lemma after_fetch_returns pid residue (w1 : world S) :
  residue <> [] ->
  (after_fetch pid residue w1).1 = Return tt ->
  log (after_fetch pid residue w1).2
  = log w1 ++ Stdout (msg_adding (Py.len residue) pid)
           :: batch_events pid (batches residue) ++ [Stdout msg_all_added].
Proof.
  destruct residue as [|x residue]; [congruence|]. intros _.
  set (r := x :: residue). unfold after_fetch. fold r.
  change (match r with [] => print msg_nothing_new | _ :: _ =>
            print (msg_adding (Py.len r) pid) ;;;
            for_each (Py.range 0 (Py.len r) batch_size) (add_batch pid r) ;;;
            print msg_all_added end)
    with (print (S:=S) (msg_adding (Py.len r) pid) ;;;
          for_each (Py.range 0 (Py.len r) batch_size) (add_batch pid r) ;;;
          print msg_all_added).
  set (w2 := World (client w1) (log w1 ++ [Stdout (msg_adding (Py.len r) pid)])).
  rewrite (bind_return _ _ w1 tt w2) by reflexivity.
  pose proof (for_each_returns pid r (Py.range 0 (Py.len r) batch_size) w2) as Hret.
  fold (batch_at r) in Hret. rewrite <- batches_batch_at in Hret.
  unfold bind.
  destruct (for_each (Py.range 0 (Py.len r) batch_size) (add_batch pid r) w2)
    as [[[]|e|] w3]; cbn [fst snd] in *; try discriminate.
  intros _. unfold print, record. cbn [fst snd log client].
  rewrite Hret by reflexivity. unfold w2. cbn [log].
  rewrite <- !app_assoc. reflexivity.
Qed.

(** A run whose append calls are all accepted gets through. *)
Lemma after_fetch_accepts pid residue (w1 : world S) (c2 : S) :
  accepts (client w1) pid (batches residue) c2 ->
  after_fetch pid residue w1
  = (Return tt, World c2 (log w1 ++ run_events pid residue)).
Proof.
  destruct residue as [|x residue].
  - rewrite batches_nil. intros ->. reflexivity.
  - set (r := x :: residue). intros Hacc.
    rewrite batches_batch_at in Hacc. unfold after_fetch, run_events. fold r.
    change (match r with [] => print msg_nothing_new | _ :: _ =>
              print (msg_adding (Py.len r) pid) ;;;
              for_each (Py.range 0 (Py.len r) batch_size) (add_batch pid r) ;;;
              print msg_all_added end)
      with (print (S:=S) (msg_adding (Py.len r) pid) ;;;
            for_each (Py.range 0 (Py.len r) batch_size) (add_batch pid r) ;;;
            print msg_all_added).
    set (w2 := World (client w1) (log w1 ++ [Stdout (msg_adding (Py.len r) pid)])).
    rewrite (bind_return _ _ w1 tt w2) by reflexivity.
    erewrite bind_return by (unfold w2; apply for_each_accepts; exact Hacc).
    unfold print, record. cbn [client log]. rewrite batches_batch_at.
    rewrite <- !app_assoc. reflexivity.
Qed.

Lemma append_calls_run_events pid residue :
  append_calls (run_events pid residue) = batches residue.
Proof.
  destruct residue as [|x residue]; [reflexivity|].
  unfold run_events, append_calls.
  change (omap append_call (Stdout ?m :: ?l)) with (omap append_call l).
  rewrite omap_app. fold (append_calls (batch_events pid (batches (x :: residue)))).
  rewrite append_calls_batch_events. apply app_nil_r.
Qed.

End Returning.

(** ** Fuel *)

Section Fuel.

Context {S : Type} `{Spotify S}.

(** More fuel does not change a run that ended. *)
Lemma get_existing_loop_more_fuel fuel : forall fuel' pid X offset (w : world S),
  (get_existing_loop fuel pid X offset w).1 <> OutOfFuel ->
  (fuel <= fuel')%nat ->
  get_existing_loop fuel' pid X offset w = get_existing_loop fuel pid X offset w.
Proof.
  induction fuel as [|fuel IH]; intros fuel' pid X offset w Hend Hle.
  - destruct Hend. reflexivity.
  - destruct fuel' as [|fuel']; [lia|].
    cbn [get_existing_loop] in *. unfold bind in *.
    destruct (call_playlist_items pid offset limit fields w) as [[r|e|] w1];
      try reflexivity.
    cbn zeta in *. destruct (Py.len (get_items r) <? limit); [reflexivity|].
    apply IH; [exact Hend|lia].
Qed.

End Fuel.

(** On the stand-in client the fetch always ends: the client runs out of
    responses and then serves empty pages. *)
Lemma dummy_loop_returns fuel : forall responses calls added pid X offset lg,
  (length responses - calls < fuel)%nat ->
  exists E w',
    get_existing_loop fuel pid X offset (World (Dummy responses calls added) lg)
    = (Return E, w').
Proof.
  induction fuel as [|fuel IH]; intros responses calls added pid X offset lg Hfuel;
    [lia|].
  cbn [get_existing_loop]. unfold bind, call_playlist_items, record.
  cbn [client log playlist_items dummy_spotify dummy_playlist_items
       _playlist_responses playlist_items_calls added_batches].
  destruct (responses !! calls) as [r|] eqn:Hr.
  - cbn zeta. destruct (Py.len (get_items r) <? limit); [eexists _, _; reflexivity|].
    apply IH. apply lookup_lt_Some in Hr. lia.
  - eexists _, _. reflexivity.
Qed.

Lemma dummy_fetch_returns responses pid :
  exists E w',
    get_existing_track_ids (length responses + 1) pid (dummy_world responses)
    = (Return E, w').
Proof. apply dummy_loop_returns. lia. Qed.

(** * The claims *)

(** C1.  For every existing-set [E] and every input sequence [xs], what
    [add_tracks_to_playlist] sends to the append step, batch after batch,
    is the residue: the subsequence of [xs] made of the identifiers that
    are not in [E], in their order and with their repetitions
    ([is_residue], which only the list comprehension of the source
    satisfies, see [is_residue_unique]).  The client is taken to accept the
    append calls; the run then returns.  For the existing-set [{"id1"}] and
    the input [["id1","id2","id2","id3","id4","id5"]] one append call is
    issued, with payload [["id2","id2","id3","id4","id5"]]. *)
Theorem residue_sent_to_append {S : Type} `{Spotify S} (fuel : nat) (pid : str)
    (xs : list str) (w w1 : world S) (E : gset str) (c2 : S) :
  get_existing_track_ids fuel pid w = (Return E, w1) ->
  accepts (client w1) pid (batches (to_add E xs)) c2 ->
  exists evs,
    add_tracks_to_playlist fuel pid xs w = (Return tt, World c2 (log w1 ++ evs))
    /\ concat (append_calls evs) = to_add E xs
    /\ is_residue E xs (concat (append_calls evs))
    /\ (E = {[ lit "id1" ]} -> xs = skip_track_ids ->
        append_calls evs = [expected_batch]).
Proof.
  intros Hfetch Hacc. exists (run_events pid (to_add E xs)).
  rewrite (add_tracks_fetch_ok _ _ _ _ _ _ Hfetch).
  rewrite append_calls_run_events, concat_batches.
  split; [apply after_fetch_accepts, Hacc|]. split; [reflexivity|].
  split; [apply to_add_is_residue|].
  intros -> ->. vm_compute. reflexivity.
Qed.

Lemma residue_sent_to_append_witness :
  exists w1 c2,
    get_existing_track_ids 1 dummy (dummy_world skip_responses)
    = (Return {[ lit "id1" ]}, w1)
    /\ added_batches c2 = [expected_batch]
    /\ exists evs,
         add_tracks_to_playlist 1 dummy skip_track_ids (dummy_world skip_responses)
         = (Return tt, World c2 (log w1 ++ evs))
         /\ concat (append_calls evs) = to_add {[ lit "id1" ]} skip_track_ids
         /\ is_residue {[ lit "id1" ]} skip_track_ids (concat (append_calls evs))
         /\ ({[ lit "id1" ]} = ({[ lit "id1" ]} : gset str) ->
             skip_track_ids = skip_track_ids ->
             append_calls evs = [expected_batch]).
Proof.
  exists (World (Dummy skip_responses 1 [])
            [CallPlaylistItems dummy 0 100 (lit "items.track.id,total")]),
         (Dummy skip_responses 1 [expected_batch]).
  split; [vm_compute; reflexivity|]. split; [reflexivity|].
  apply (residue_sent_to_append 1 dummy skip_track_ids (dummy_world skip_responses)).
  - vm_compute. reflexivity.
  - vm_compute. eexists. split; reflexivity.
Defined.

(** C2.  When the residue is not empty and the client accepts the append
    calls, [add_tracks_to_playlist] issues one append call per batch, in
    the order of the residue, and returns: the payloads, put end to end,
    are the residue; each holds between 1 and 100 identifiers; there are
    [ceil(len/100)] of them; each call is followed by its progress line,
    and the log ends with the summary.  A residue of 150 identifiers gives
    two calls, with its first 100 and its last 50 identifiers. *)
Theorem batches_of_at_most_100 {S : Type} `{Spotify S} (fuel : nat) (pid : str)
    (xs : list str) (w w1 : world S) (E : gset str) (c2 : S) :
  get_existing_track_ids fuel pid w = (Return E, w1) ->
  accepts (client w1) pid (batches (to_add E xs)) c2 ->
  to_add E xs <> [] ->
  exists calls,
    add_tracks_to_playlist fuel pid xs w
    = (Return tt,
       World c2
         (log w1 ++ Stdout (msg_adding (Py.len (to_add E xs)) pid)
                :: batch_events pid calls ++ [Stdout msg_all_added]))
    /\ append_calls (batch_events pid calls) = calls
    /\ concat calls = to_add E xs
    /\ Forall (fun batch => (1 <= length batch <= 100)%nat) calls
    /\ Z.of_nat (length calls) = ceil_div (Py.len (to_add E xs)) 100
    /\ (length (to_add E xs) = 150%nat ->
        calls = [take 100 (to_add E xs); drop 100 (to_add E xs)]
        /\ map length calls = [100; 50]%nat).
Proof.
  intros Hfetch Hacc Hne.
  exists (batches (to_add E xs)).
  rewrite (add_tracks_fetch_ok _ _ _ _ _ _ Hfetch).
  rewrite (after_fetch_accepts _ _ _ _ Hacc).
  split; [destruct (to_add E xs); [congruence|reflexivity]|].
  split; [apply append_calls_batch_events|].
  split; [apply concat_batches|].
  split; [apply Forall_batches|]. split.
  - rewrite length_batches. unfold num_batches, Py.len, batch_size.
    apply Z2Nat.id. unfold ceil_div. apply Z.div_pos; lia.
  - intros H150. rewrite (batches_150 _ H150). split; [reflexivity|].
    cbn [map]. rewrite length_take, length_drop, H150. reflexivity.
Qed.

Lemma batches_of_at_most_100_witness :
  exists calls,
    add_tracks_to_playlist 1 dummy track_ids_150 (dummy_world [])
    = (Return tt,
       World (Dummy [] 1 [take 100 track_ids_150; drop 100 track_ids_150])
         (log (World (Dummy [] 1 [])
                 [CallPlaylistItems dummy 0 100 (lit "items.track.id,total")])
          ++ Stdout (msg_adding (Py.len (to_add ∅ track_ids_150)) dummy)
             :: batch_events dummy calls ++ [Stdout msg_all_added]))
    /\ append_calls (batch_events dummy calls) = calls
    /\ concat calls = to_add ∅ track_ids_150
    /\ Forall (fun batch => (1 <= length batch <= 100)%nat) calls
    /\ Z.of_nat (length calls) = ceil_div (Py.len (to_add ∅ track_ids_150)) 100
    /\ (length (to_add ∅ track_ids_150) = 150%nat ->
        calls = [take 100 (to_add ∅ track_ids_150); drop 100 (to_add ∅ track_ids_150)]
        /\ map length calls = [100; 50]%nat).
Proof.
  apply (batches_of_at_most_100 1 dummy track_ids_150 (dummy_world [])
           (World (Dummy [] 1 [])
              [CallPlaylistItems dummy 0 100 (lit "items.track.id,total")])
           ∅ (Dummy [] 1 [take 100 track_ids_150; drop 100 track_ids_150])).
  - vm_compute. reflexivity.
  - vm_compute. eexists. split; [reflexivity|]. eexists. split; reflexivity.
  - vm_compute. discriminate.
Defined.

(** C3, as the code has it.  For a playlist of [N + 1] tracks, [N] a
    multiple of 100, served in full pages of 100 and a short last page,
    [get_existing_track_ids] issues [ceil((N + 1) / 100)] page requests and
    returns the union over all pages of the identifiers of the entries that
    have a track reference and an identifier that is neither null nor the
    empty string. *)
Theorem snapshot_of_paged_playlist {S : Type} `{Spotify S} (fuel : nat)
    (pid : str) (c c' : S) (lg : list event) (full : list Response)
    (last : Response) (N : Z) :
  N `mod` 100 = 0 ->
  Z.of_nat (length ((full ++ [last]) ≫= get_items)) = N + 1 ->
  Forall (fun r => length (get_items r) = 100%nat) full ->
  (length (get_items last) < 100)%nat ->
  serves c pid 0 (full ++ [last]) c' ->
  (length full < fuel)%nat ->
  exists evs,
    get_existing_track_ids fuel pid (World c lg)
    = (Return (snapshot_of_nonempty (full ++ [last])), World c' (lg ++ evs))
    /\ Z.of_nat (length (page_requests evs)) = ceil_div (N + 1) 100
    /\ append_calls evs = [].
Proof.
  intros Hmod Hlen Hfull Hlast Hserves Hfuel.
  exists (requests pid 0 (length full + 1)).
  unfold get_existing_track_ids.
  rewrite (get_existing_loop_serves full last fuel c c' pid ∅ 0 lg); try assumption.
  - rewrite after_pages_snapshot, (left_id_L ∅ (∪)).
    split; [reflexivity|]. split; [|apply append_calls_requests].
    rewrite page_requests_requests, length_map, length_seq.
    assert (Hsum : length ((full ++ [last]) ≫= get_items)
                   = (100 * length full + length (get_items last))%nat).
    { rewrite bind_app. cbn [mbind list_bind]. rewrite app_nil_r, length_app.
      f_equal. clear -Hfull. induction Hfull as [|r full Hr _ IH]; [reflexivity|].
      rewrite bind_cons, length_app, IH, Hr. cbn [length]. lia. }
    rewrite Hsum in Hlen. unfold ceil_div.
    assert (Hq : exists q, N = 100 * q)
      by (exists (N `div` 100); Z.div_mod_to_equations; lia).
    destruct Hq as [q ->].
    replace (100 * q + 1 + 100 - 1) with ((q + 1) * 100) by lia.
    rewrite Z.div_mul by lia. lia.
  - eapply Forall_impl; [exact Hfull|]. intros r Hr. cbv beta in Hr.
    unfold Py.len, limit. lia.
  - unfold Py.len, limit. lia.
Qed.

Lemma snapshot_of_paged_playlist_witness :
  exists evs,
    get_existing_track_ids 2 dummy (dummy_world paginated_responses)
    = (Return (snapshot_of_nonempty ([page_of first_page_items] ++ [page_of second_page_items])),
       World (Dummy paginated_responses 2 []) ([] ++ evs))
    /\ Z.of_nat (length (page_requests evs)) = ceil_div (100 + 1) 100
    /\ append_calls evs = [].
Proof.
  apply (snapshot_of_paged_playlist 2 dummy (dummy_init paginated_responses)
           (Dummy paginated_responses 2 []) []
           [page_of first_page_items] (page_of second_page_items) 100).
  - reflexivity.
  - vm_compute. reflexivity.
  - repeat constructor.
  - cbn. lia.
  - simpl. eexists. split; [reflexivity|]. eexists. split; reflexivity.
  - simpl. lia.
Defined.

(** C3 in its own words does not hold: with only the entries without a
    track reference or with a null identifier left out, the page
    [{"items": [{"track": {"id": ""}}]}] (a playlist of 0 + 1 tracks) would
    give the set that holds the empty string; the code returns the empty
    set. *)
Lemma snapshot_of_listed_fails :
  ~ (forall (S : Type) (HS : Spotify S) (fuel : nat) (pid : str) (c c' : S)
            (lg : list event) (full : list Response) (last : Response) (N : Z),
        N `mod` 100 = 0 ->
        Z.of_nat (length ((full ++ [last]) ≫= get_items)) = N + 1 ->
        Forall (fun r => length (get_items r) = 100%nat) full ->
        (length (get_items last) < 100)%nat ->
        serves c pid 0 (full ++ [last]) c' ->
        (length full < fuel)%nat ->
        exists evs,
          get_existing_track_ids fuel pid (World c lg)
          = (Return (snapshot_of_listed (full ++ [last])), World c' (lg ++ evs))
          /\ Z.of_nat (length (page_requests evs)) = ceil_div (N + 1) 100
          /\ append_calls evs = []).
Proof.
  intros Hclaim.
  destruct (Hclaim DummySpotifyClient dummy_spotify 1%nat dummy
              (dummy_init [blank_id_page]) (Dummy [blank_id_page] 1 []) []
              [] blank_id_page 0) as (evs & Hrun & _).
  - reflexivity.
  - reflexivity.
  - constructor.
  - simpl. lia.
  - simpl. eexists. split; reflexivity.
  - simpl. lia.
  - assert (Hcode : (get_existing_track_ids 1 dummy (World (dummy_init [blank_id_page]) [])).1
                    = Return ∅) by (vm_compute; reflexivity).
    rewrite Hrun in Hcode. cbn [fst] in Hcode.
    assert (Hin : ([] : str) ∈ snapshot_of_listed ([] ++ [blank_id_page]))
      by (apply elem_of_list_to_set; left).
    apply (f_equal (fun o => match o with Return X => X | _ => ∅ end)) in Hcode.
    cbv beta iota in Hcode. rewrite Hcode in Hin. apply not_elem_of_empty in Hin.
    exact Hin.
Qed.

(** What the code does on that page. *)
Example blank_id_page_snapshot :
  (get_existing_track_ids 1 dummy (dummy_world [blank_id_page])).1 = Return ∅
  /\ snapshot_of_listed [blank_id_page] = {[ [] ]}
  /\ snapshot_of_nonempty [blank_id_page] = ∅.
Proof. repeat split; vm_compute; reflexivity. Qed.

(** C4.  For every input file, [read_track_ids] returns the sequence the
    normalizer's contract describes ([normalized]): each line trimmed;
    lines empty after trimming or with the comment marker as first
    non-whitespace character skipped; for the others the segment after the
    last colon when the line has a colon, the trimmed line otherwise; empty
    identifiers dropped; the order of the lines kept. *)
Theorem read_track_ids_normalized (fs : gmap (list N) (list N))
    (file_path content : str) :
  fs !! file_path = Some content ->
  read_track_ids fs file_path = inr (normalized content).
Proof.
  intros Hfile. unfold read_track_ids, open, normalized. rewrite Hfile.
  f_equal. apply foldl_read_line.
Qed.

Lemma read_track_ids_normalized_witness :
  read_track_ids {[ lit "tracks.txt" := tracks_txt ]} (lit "tracks.txt")
  = inr (normalized tracks_txt).
Proof.
  apply (read_track_ids_normalized {[ lit "tracks.txt" := tracks_txt ]}
           (lit "tracks.txt") tracks_txt).
  vm_compute. reflexivity.
Defined.

(** C5.  In every run of [add_tracks_to_playlist] the existing-set is
    fetched once and first: the log of the run is the log of one run of
    [get_existing_track_ids], which holds page requests only, followed by
    events among which there is no page request.  The append calls carry
    batches of the input filtered against that one snapshot [E], in order,
    so what earlier batches appended never enters the filter. *)
Theorem snapshot_fetched_once {S : Type} `{Spotify S} (fuel : nat) (pid : str)
    (xs : list str) (w : world S) :
  exists n evs,
    log (get_existing_track_ids fuel pid w).2 = log w ++ requests pid 0 n
    /\ append_calls (requests pid 0 n) = []
    /\ log (add_tracks_to_playlist fuel pid xs w).2
       = log (get_existing_track_ids fuel pid w).2 ++ evs
    /\ page_requests evs = []
    /\ (forall E, (get_existing_track_ids fuel pid w).1 = Return E ->
          exists k, append_calls evs = take k (batches (to_add E xs)))
    /\ ((forall E, (get_existing_track_ids fuel pid w).1 <> Return E) ->
          evs = []).
Proof.
  destruct (get_existing_loop_log fuel pid ∅ 0 w) as (n & _ & Hlog & _).
  fold (get_existing_track_ids fuel pid w) in Hlog.
  exists n.
  destruct (get_existing_track_ids fuel pid w) as [o w1] eqn:Hfetch.
  cbn [fst snd] in *.
  destruct o as [E|e|].
  - rewrite (add_tracks_fetch_ok _ _ _ _ _ _ Hfetch).
    destruct (after_fetch_log pid (to_add E xs) w1)
      as (evs & k & Hrun & Hpages & Hcalls & _ & _).
    exists evs. split; [exact Hlog|]. split; [apply append_calls_requests|].
    split; [exact Hrun|]. split; [exact Hpages|]. split.
    + intros E' [= <-]. exists k. exact Hcalls.
    + intros Hno. destruct (Hno E). reflexivity.
  - exists []. split; [exact Hlog|]. split; [apply append_calls_requests|].
    rewrite add_tracks_fetch_stops by (rewrite Hfetch; discriminate).
    rewrite Hfetch. cbn [fst snd]. rewrite app_nil_r.
    repeat split; auto; discriminate.
  - exists []. split; [exact Hlog|]. split; [apply append_calls_requests|].
    rewrite add_tracks_fetch_stops by (rewrite Hfetch; discriminate).
    rewrite Hfetch. cbn [fst snd]. rewrite app_nil_r.
    repeat split; auto; discriminate.
Qed.

(** C6.  When the pages a client serves are [full], each of 100 items or
    more, and then [short], of fewer than 100, [get_existing_track_ids]
    returns after the request that [short] answers, whatever the total
    counts of the pages say: it has issued [length full + 1] requests and
    nothing else, and its [k]-th request asks for offset [(k - 1) * 100]
    with limit 100. *)
Theorem fetch_stops_at_first_short_page {S : Type} `{Spotify S} (fuel : nat)
    (pid : str) (c c' : S) (lg : list event) (full : list Response)
    (short : Response) :
  Forall (fun r => 100 <= Py.len (get_items r)) full ->
  Py.len (get_items short) < 100 ->
  serves c pid 0 (full ++ [short]) c' ->
  (length full < fuel)%nat ->
  exists evs,
    get_existing_track_ids fuel pid (World c lg)
    = (Return (after_pages ∅ (full ++ [short])), World c' (lg ++ evs))
    /\ length evs = (length full + 1)%nat
    /\ forall k : nat, (1 <= k <= length full + 1)%nat ->
         evs !! (k - 1)%nat
         = Some (CallPlaylistItems pid ((Z.of_nat k - 1) * 100) 100
                   (lit "items.track.id,total")).
Proof.
  intros Hfull Hshort Hserves Hfuel.
  exists (requests pid 0 (length full + 1)).
  split; [apply get_existing_loop_serves; assumption|].
  split; [apply length_requests|].
  intros k Hk. unfold requests. rewrite list_lookup_fmap.
  rewrite lookup_seq_lt by lia. cbn [fmap option_fmap option_map Nat.add].
  unfold limit, fields. do 2 f_equal. lia.
Qed.

Lemma fetch_stops_at_first_short_page_witness :
  exists evs,
    get_existing_track_ids 5 dummy (dummy_world misleading_responses)
    = (Return (after_pages ∅ ([misleading_full] ++ [misleading_short])),
       World (Dummy misleading_responses 2 []) ([] ++ evs))
    /\ length evs = (length [misleading_full] + 1)%nat
    /\ forall k : nat, (1 <= k <= length [misleading_full] + 1)%nat ->
         evs !! (k - 1)%nat
         = Some (CallPlaylistItems dummy ((Z.of_nat k - 1) * 100) 100
                   (lit "items.track.id,total")).
Proof.
  apply (fetch_stops_at_first_short_page 5 dummy
           (dummy_init misleading_responses)
           (Dummy misleading_responses 2 []) []
           [misleading_full] misleading_short).
  - repeat constructor. vm_compute. discriminate.
  - vm_compute. reflexivity.
  - simpl. eexists. split; [reflexivity|]. eexists. split; reflexivity.
  - simpl. lia.
Defined.

(** C7.  When every identifier of the input is in the existing-set, a run
    of [add_tracks_to_playlist] prints the line that says there is nothing
    new and returns: the client is as the fetch left it, the line is all
    the run adds to the log after the fetch, and the log holds no append
    call that was not there before the run. *)
Theorem nothing_new_no_append {S : Type} `{Spotify S} (fuel : nat) (pid : str)
    (xs : list str) (w w1 : world S) (E : gset str) :
  get_existing_track_ids fuel pid w = (Return E, w1) ->
  (forall x, x ∈ xs -> x ∈ E) ->
  add_tracks_to_playlist fuel pid xs w
  = (Return tt,
     World (client w1)
       (log w1 ++ [Stdout (lit "No new tracks to add; playlist already contains all provided songs.")]))
  /\ append_calls (log (add_tracks_to_playlist fuel pid xs w).2)
     = append_calls (log w).
Proof.
  intros Hfetch Hall. apply to_add_nil_iff in Hall.
  rewrite (add_tracks_fetch_ok _ _ _ _ _ _ Hfetch), Hall.
  split; [reflexivity|].
  change (after_fetch pid [] w1)
    with (Return tt, World (client w1) (log w1 ++ [Stdout msg_nothing_new])).
  destruct (get_existing_loop_log fuel pid ∅ 0 w) as (n & _ & Hlog & _).
  fold (get_existing_track_ids fuel pid w) in Hlog. rewrite Hfetch in Hlog.
  cbn [snd log] in *. rewrite Hlog. unfold append_calls. rewrite !omap_app.
  fold (append_calls (requests pid 0 n)). rewrite append_calls_requests.
  rewrite !app_nil_r. reflexivity.
Qed.

Lemma nothing_new_no_append_witness :
  exists w1,
    get_existing_track_ids 1 dummy (dummy_world skip_responses)
    = (Return {[ lit "id1" ]}, w1)
    /\ add_tracks_to_playlist 1 dummy [lit "id1"; lit "id1"] (dummy_world skip_responses)
       = (Return tt,
          World (client w1)
            (log w1 ++ [Stdout (lit "No new tracks to add; playlist already contains all provided songs.")]))
    /\ append_calls (log (add_tracks_to_playlist 1 dummy [lit "id1"; lit "id1"]
                            (dummy_world skip_responses)).2)
       = append_calls (log (dummy_world skip_responses)).
Proof.
  eexists. split; [vm_compute; reflexivity|].
  apply (nothing_new_no_append 1 dummy [lit "id1"; lit "id1"]
           (dummy_world skip_responses) _ {[ lit "id1" ]}).
  - vm_compute. reflexivity.
  - intros x Hx. vm_compute in Hx. set_solver.
Defined.

(** C8.  When the client accepts the append calls for the batches [done]
    and raises [e] on the call for the next batch [b], the run of
    [add_tracks_to_playlist] ends with [e] uncaught, right after that call:
    the log holds the calls for [done], each with its progress line, then
    the refused call, and no call for the batches in [rest]; the client is
    in the state the accepted calls and the refused one left it in, nothing
    is undone. *)
Theorem append_failure_aborts {S : Type} `{Spotify S} (fuel : nat) (pid : str)
    (xs : list str) (w w1 : world S) (E : gset str)
    (done : list (list str)) (b : list str) (rest : list (list str))
    (c2 c3 : S) (e : exn) :
  get_existing_track_ids fuel pid w = (Return E, w1) ->
  batches (to_add E xs) = done ++ b :: rest ->
  accepts (client w1) pid done c2 ->
  playlist_add_items c2 pid b = (inl e, c3) ->
  add_tracks_to_playlist fuel pid xs w
  = (Raise e,
     World c3
       (log w1 ++ Stdout (msg_adding (Py.len (to_add E xs)) pid)
              :: batch_events pid done ++ [CallPlaylistAddItems pid b]))
  /\ append_calls (batch_events pid done ++ [CallPlaylistAddItems pid b])
     = done ++ [b].
Proof.
  intros Hfetch Hbatches Hacc Hfail. split.
  - rewrite (add_tracks_fetch_ok _ _ _ _ _ _ Hfetch).
    destruct (to_add E xs) as [|x residue] eqn:Hres.
    { rewrite batches_nil in Hbatches. destruct done; discriminate. }
    rewrite <- Hres in *. clear Hres.
    rewrite batches_batch_at in Hbatches.
    apply map_eq_app in Hbatches as (starts & tl & Hstarts & Hdone & Htl).
    apply map_eq_cons in Htl as (start & starts' & -> & Hb & _).
    subst done b.
    assert (Hcont : after_fetch pid (to_add E xs) w1
                    = (print (S:=S) (msg_adding (Py.len (to_add E xs)) pid) ;;;
                       for_each (Py.range 0 (Py.len (to_add E xs)) batch_size)
                                (add_batch pid (to_add E xs)) ;;;
                       print msg_all_added) w1).
    { unfold after_fetch. destruct (to_add E xs); [|reflexivity].
      destruct starts; discriminate. }
    rewrite Hcont, Hstarts.
    set (w2 := World (client w1)
                 (log w1 ++ [Stdout (msg_adding (Py.len (to_add E xs)) pid)])).
    rewrite (bind_return _ _ w1 tt w2) by reflexivity.
    erewrite bind_raise
      by (unfold w2; eapply for_each_refused; [exact Hacc|exact Hfail]).
    rewrite <- app_assoc. reflexivity.
  - unfold append_calls. rewrite omap_app.
    fold (append_calls (batch_events pid done)).
    rewrite append_calls_batch_events. reflexivity.
Qed.

Lemma append_failure_aborts_witness :
  exists w1 c3 e,
    get_existing_track_ids 1 dummy (World quota_one []) = (Return ∅, w1)
    /\ (add_tracks_to_playlist 1 dummy track_ids_150 (World quota_one [])
        = (Raise e,
           World c3
             (log w1 ++ Stdout (msg_adding (Py.len (to_add ∅ track_ids_150)) dummy)
                    :: batch_events dummy [take 100 track_ids_150]
                    ++ [CallPlaylistAddItems dummy (drop 100 track_ids_150)]))
        /\ append_calls (batch_events dummy [take 100 track_ids_150]
                         ++ [CallPlaylistAddItems dummy (drop 100 track_ids_150)])
           = [take 100 track_ids_150] ++ [drop 100 track_ids_150])
    /\ added_batches (quota_pages c3) = [take 100 track_ids_150].
Proof.
  eexists _, _, _. split; [vm_compute; reflexivity|]. split.
  - eapply (append_failure_aborts 1 dummy track_ids_150 (World quota_one []) _ ∅
              [take 100 track_ids_150] (drop 100 track_ids_150) []).
    + vm_compute. reflexivity.
    + vm_compute. reflexivity.
    + simpl. eexists. split; [vm_compute; reflexivity|reflexivity].
    + vm_compute. reflexivity.
  - vm_compute. reflexivity.
Defined.

(** C9.  A response without an ["items"] key counts as an empty page:
    after full pages [full], such a response adds no identifier and ends the
    loop, and [get_existing_track_ids] returns the set accumulated over
    [full], with no request after the one that response answers. *)
Theorem missing_items_is_empty_page {S : Type} `{Spotify S} (fuel : nat)
    (pid : str) (c c' : S) (lg : list event) (full : list Response)
    (r : Response) :
  Forall (fun p => 100 <= Py.len (get_items p)) full ->
  resp_items r = None ->
  serves c pid 0 (full ++ [r]) c' ->
  (length full < fuel)%nat ->
  get_existing_track_ids fuel pid (World c lg)
  = (Return (after_pages ∅ full),
     World c' (lg ++ requests pid 0 (length full + 1)))
  /\ after_pages ∅ (full ++ [r]) = after_pages ∅ full
  /\ after_pages ∅ full = snapshot_of_nonempty full.
Proof.
  intros Hfull Hr Hserves Hfuel.
  assert (Hitems : get_items r = []) by (unfold get_items; rewrite Hr; reflexivity).
  assert (Hsame : after_pages ∅ (full ++ [r]) = after_pages ∅ full).
  { unfold after_pages. rewrite foldl_app. cbn [foldl]. rewrite Hitems. reflexivity. }
  split; [|split; [exact Hsame|]].
  - rewrite <- Hsame. apply get_existing_loop_serves; try assumption.
    rewrite Hitems. reflexivity.
  - rewrite after_pages_snapshot. apply (left_id_L ∅ (∪)).
Qed.

Lemma missing_items_is_empty_page_witness :
  get_existing_track_ids 2 dummy
    (dummy_world [page_of first_page_items; no_items_response])
  = (Return (after_pages ∅ [page_of first_page_items]),
     World (Dummy [page_of first_page_items; no_items_response] 2 [])
       ([] ++ requests dummy 0 (length [page_of first_page_items] + 1)))
  /\ after_pages ∅ ([page_of first_page_items] ++ [no_items_response])
     = after_pages ∅ [page_of first_page_items]
  /\ after_pages ∅ [page_of first_page_items]
     = snapshot_of_nonempty [page_of first_page_items].
Proof.
  apply (missing_items_is_empty_page 2 dummy
           (dummy_init [page_of first_page_items; no_items_response])
           (Dummy [page_of first_page_items; no_items_response] 2 []) []
           [page_of first_page_items] no_items_response).
  - repeat constructor. vm_compute. discriminate.
  - reflexivity.
  - simpl. eexists. split; [reflexivity|]. eexists. split; reflexivity.
  - simpl. lia.
Defined.

(** C10.  The set [get_existing_track_ids] returns never holds the empty
    string: an entry whose identifier is the empty string leaves the set as
    it is, like an entry without a track reference or with a null
    identifier, because only a truthy identifier is added. *)
Theorem snapshot_without_empty_string {S : Type} `{Spotify S} (fuel : nat)
    (pid : str) (w w' : world S) (E : gset str) :
  get_existing_track_ids fuel pid w = (Return E, w') ->
  ([] ∉ E)
  /\ forall X : gset str,
       add_item X {| item_track := Some {| track_id := Some [] |} |} = X.
Proof.
  intros Hfetch. split; [|reflexivity].
  destruct (get_existing_loop_log fuel pid ∅ 0 w) as (n & _ & _ & Hset).
  apply Hset; [|apply not_elem_of_empty].
  unfold get_existing_track_ids in Hfetch. rewrite Hfetch. reflexivity.
Qed.

Lemma snapshot_without_empty_string_witness :
  ([] ∉ ({[ lit "id1" ]} : gset str))
  /\ forall X : gset str,
       add_item X {| item_track := Some {| track_id := Some [] |} |} = X.
Proof.
  apply (snapshot_without_empty_string 1 dummy (dummy_world [mixed_page])
           (World (Dummy [mixed_page] 1 [])
              [CallPlaylistItems dummy 0 100 (lit "items.track.id,total")])
           {[ lit "id1" ]}).
  vm_compute. reflexivity.
Defined.

(** * The tests of the repository and further runs *)

(** [test_get_existing_track_ids_paginates_results]: 101 identifiers over
    two pages, two calls of [playlist_items]. *)
Example test_get_existing_track_ids_paginates_results :
  exists w,
    get_existing_track_ids 2 dummy (dummy_world paginated_responses)
    = (Return (list_to_set (map (fun n => lit (id_n n)) (seq 1 101))), w)
    /\ playlist_items_calls (client w) = 2%nat.
Proof.
  eexists. split.
  - unfold get_existing_track_ids, dummy_world.
    rewrite (get_existing_loop_serves [page_of first_page_items]
               (page_of second_page_items) 2 (dummy_init paginated_responses)
               (Dummy paginated_responses 2 []) dummy ∅ 0 []).
    + rewrite after_pages_snapshot, (left_id_L ∅ (∪)).
      unfold snapshot_of_nonempty. do 3 f_equal; vm_compute; reflexivity.
    + repeat constructor. vm_compute. discriminate.
    + vm_compute. reflexivity.
    + simpl. eexists. split; [reflexivity|]. eexists. split; reflexivity.
    + simpl. lia.
  - reflexivity.
Qed.

(** The snapshot is not refreshed: an identifier sent in the first batch
    is sent again in the second. *)
Example repeated_across_batches :
  let xs := repeat (lit "id7") 101 in
  exists w,
    add_tracks_to_playlist 1 dummy xs (dummy_world []) = (Return tt, w)
    /\ added_batches (client w) = [repeat (lit "id7") 100; [lit "id7"]].
Proof. eexists. split; vm_compute; reflexivity. Qed.

(** A file that cannot be opened. *)
Lemma read_track_ids_missing (fs : gmap (list N) (list N)) (file_path : str) :
  fs !! file_path = None ->
  read_track_ids fs file_path = inl (FileNotFoundError file_path).
Proof. intros Hfile. unfold read_track_ids, open. rewrite Hfile. reflexivity. Qed.

(** A colon at the end of a line leaves no identifier; what follows the
    last colon is taken as it is. *)
Example read_line_examples :
  read_line [] (lit "spotify:track:") = []
  /\ read_line [] (lit "  spotify:track: abc  ") = [lit " abc"]
  /\ read_line [] (lit "   # abc:def") = []
  /\ read_line [] (lit "abc # def") = [lit "abc # def"].
Proof. repeat split. Qed.

(** * Further properties *)

(** ** The fetch: failures, pages without end, playlists of any length *)

Section FetchMore.

Context {S : Type} `{Spotify S}.

Lemma get_existing_loop_fails full : forall fuel (c c1 c2 : S) pid X offset lg e,
  Forall (fun r => limit <= Py.len (get_items r)) full ->
  serves c pid offset full c1 ->
  playlist_items c1 pid (offset + Z.of_nat (length full) * limit) limit fields
  = (inl e, c2) ->
  (length full < fuel)%nat ->
  get_existing_loop fuel pid X offset (World c lg)
  = (Raise e, World c2 (lg ++ requests pid offset (length full + 1))).
Proof.
  induction full as [|r full IH];
    intros fuel c c1 c2 pid X offset lg e Hfull Hs Hfail Hfuel;
    (destruct fuel as [|fuel]; [simpl in Hfuel; lia|]).
  - simpl in Hs. subst c1. cbn [length] in Hfail.
    replace (offset + Z.of_nat 0 * limit) with offset in Hfail by lia.
    cbn [get_existing_loop]. unfold bind, call_playlist_items, record.
    cbn [client log]. rewrite Hfail. cbn [length Nat.add].
    rewrite requests_succ. reflexivity.
  - destruct Hs as (c0 & Hcall & Hs).
    apply Forall_cons in Hfull as [Hr Hfull].
    cbn [get_existing_loop].
    erewrite bind_return by (apply call_playlist_items_ok; exact Hcall).
    cbn zeta. apply Z.ltb_ge in Hr. rewrite Hr.
    rewrite (IH fuel c0 c1 c2 pid _ (offset + limit) _ e Hfull Hs).
    + cbn [client log length Nat.add]. rewrite requests_succ, <- app_assoc. reflexivity.
    + rewrite <- Hfail. f_equal. cbn [length]. lia.
    + simpl in Hfuel. lia.
Qed.

Lemma get_existing_loop_goes_on full : forall (c c' : S) pid X offset lg,
  Forall (fun r => limit <= Py.len (get_items r)) full ->
  serves c pid offset full c' ->
  get_existing_loop (length full) pid X offset (World c lg)
  = (OutOfFuel, World c' (lg ++ requests pid offset (length full))).
Proof.
  induction full as [|r full IH]; intros c c' pid X offset lg Hfull Hs.
  - simpl in Hs. subst c'. simpl. rewrite app_nil_r. reflexivity.
  - destruct Hs as (c0 & Hcall & Hs).
    apply Forall_cons in Hfull as [Hr Hfull].
    cbn [length get_existing_loop].
    erewrite bind_return by (apply call_playlist_items_ok; exact Hcall).
    cbn zeta. apply Z.ltb_ge in Hr. rewrite Hr.
    rewrite (IH c0 c' pid _ (offset + limit) _ Hfull Hs).
    cbn [client log]. rewrite requests_succ, <- app_assoc. reflexivity.
Qed.

End FetchMore.

Lemma after_pages_concat X pages :
  after_pages X pages = foldl add_item X (concat (map get_items pages)).
Proof.
  unfold after_pages. revert X.
  induction pages as [|r pages IH]; intros X; [reflexivity|].
  cbn [foldl map concat]. rewrite foldl_app. apply IH.
Qed.

Lemma item_pages_alt (P : list Item) :
  item_pages P
  = map (fun i : nat => take 100 (drop (100 * i) P))
        (seq 0 (Datatypes.S (Z.to_nat (Py.len P `div` 100)))).
Proof.
  unfold item_pages, Py.range, Py.slice, limit.
  rewrite map_map.
  replace (Z.to_nat ((Py.len P + 1 - 0 + 100 - 1) `div` 100))
    with (Datatypes.S (Z.to_nat (Py.len P `div` 100))).
  - apply map_ext. intros i. f_equal; [lia|]. f_equal. lia.
  - unfold Py.len. rewrite <- Z2Nat.inj_succ by (apply Z.div_pos; lia).
    f_equal. Z.div_mod_to_equations. lia.
Qed.

Lemma item_pages_short (P : list Item) :
  (length P < 100)%nat -> item_pages P = [P].
Proof.
  intros HP. rewrite item_pages_alt.
  replace (Py.len P `div` 100) with 0
    by (unfold Py.len; symmetry; apply Z.div_small; lia).
  cbn [Z.to_nat seq map Nat.mul]. rewrite drop_0, take_ge by lia. reflexivity.
Qed.

Lemma item_pages_long (P : list Item) :
  (100 <= length P)%nat -> item_pages P = take 100 P :: item_pages (drop 100 P).
Proof.
  intros HP. rewrite !item_pages_alt.
  replace (Z.to_nat (Py.len P `div` 100))
    with (Datatypes.S (Z.to_nat (Py.len (drop 100 P) `div` 100))).
  - rewrite <- cons_seq, <- seq_shift. cbn [map].
    f_equal. rewrite map_map. apply map_ext. intros i.
    rewrite drop_drop. f_equal. f_equal. lia.
  - unfold Py.len. rewrite length_drop.
    rewrite <- Z2Nat.inj_succ by (apply Z.div_pos; lia).
    f_equal. Z.div_mod_to_equations. lia.
Qed.

(** The pages of a playlist: full ones, then a short one; together, the
    playlist. *)
Lemma item_pages_shape (P : list Item) :
  exists full short,
    item_pages P = full ++ [short]
    /\ Forall (fun p => length p = 100%nat) full
    /\ (length short < 100)%nat
    /\ concat (item_pages P) = P
    /\ Z.of_nat (length full) = Py.len P `div` 100.
Proof.
  remember (length P) as n eqn:Hn. revert P Hn.
  induction n as [n IH] using lt_wf_ind. intros P ->.
  destruct (le_lt_dec 100 (length P)) as [Hlong|Hshort].
  - destruct (IH (length (drop 100 P))) with (P := drop 100 P)
      as (full & short & Hpages & Hfull & Hshort & Hconcat & Hlen);
      [rewrite length_drop; lia|reflexivity|].
    exists (take 100 P :: full), short.
    rewrite (item_pages_long P Hlong), Hpages. split; [reflexivity|].
    split; [constructor; [rewrite length_take; lia|exact Hfull]|].
    split; [exact Hshort|]. split.
    + rewrite <- Hpages. cbn [concat]. rewrite Hconcat. apply take_drop.
    + cbn [length]. rewrite Nat2Z.inj_succ, Hlen. unfold Py.len.
      rewrite length_drop. Z.div_mod_to_equations. lia.
  - exists [], P. rewrite (item_pages_short P Hshort).
    split; [reflexivity|]. split; [constructor|]. split; [exact Hshort|].
    split; [cbn [concat]; apply app_nil_r|].
    unfold Py.len. cbn [length]. symmetry. apply Z.div_small. lia.
Qed.

(** X5.  A page request that raises ends the fetch with that exception,
    after the requests for the full pages before it and the failing one;
    [add_tracks_to_playlist] ends the same way, in the same world: it has
    printed nothing and issued no append call. *)
Theorem fetch_failure_propagates {S : Type} `{Spotify S} (fuel : nat) (pid : str)
    (xs : list str) (c c1 c2 : S) (lg : list event) (full : list Response)
    (e : exn) :
  Forall (fun r => 100 <= Py.len (get_items r)) full ->
  serves c pid 0 full c1 ->
  playlist_items c1 pid (Z.of_nat (length full) * 100) 100 (lit "items.track.id,total")
  = (inl e, c2) ->
  (length full < fuel)%nat ->
  get_existing_track_ids fuel pid (World c lg)
  = (Raise e, World c2 (lg ++ requests pid 0 (length full + 1)))
  /\ add_tracks_to_playlist fuel pid xs (World c lg)
     = (Raise e, World c2 (lg ++ requests pid 0 (length full + 1)))
  /\ append_calls (requests pid 0 (length full + 1)) = [].
Proof.
  intros Hfull Hserves Hfail Hfuel.
  assert (Hfetch : get_existing_track_ids fuel pid (World c lg)
                   = (Raise e, World c2 (lg ++ requests pid 0 (length full + 1)))).
  { unfold get_existing_track_ids.
    apply (get_existing_loop_fails full fuel c c1 c2); assumption. }
  split; [exact Hfetch|]. split; [|apply append_calls_requests].
  rewrite add_tracks_fetch_stops by (rewrite Hfetch; discriminate).
  rewrite Hfetch. reflexivity.
Qed.

Lemma fetch_failure_propagates_witness :
  get_existing_track_ids 3 dummy
    (World (Expiring (dummy_init paginated_responses) 1) [])
  = (Raise (SpotifyException 401 (lit "token expired")),
     World (Expiring (Dummy paginated_responses 1 []) 0)
       ([] ++ requests dummy 0 (length [page_of first_page_items] + 1)))
  /\ add_tracks_to_playlist 3 dummy skip_track_ids
       (World (Expiring (dummy_init paginated_responses) 1) [])
     = (Raise (SpotifyException 401 (lit "token expired")),
        World (Expiring (Dummy paginated_responses 1 []) 0)
          ([] ++ requests dummy 0 (length [page_of first_page_items] + 1)))
  /\ append_calls (requests dummy 0 (length [page_of first_page_items] + 1)) = [].
Proof.
  apply (fetch_failure_propagates 3 dummy skip_track_ids
           (Expiring (dummy_init paginated_responses) 1)
           (Expiring (Dummy paginated_responses 1 []) 0)
           (Expiring (Dummy paginated_responses 1 []) 0) []
           [page_of first_page_items]).
  - repeat constructor. vm_compute. discriminate.
  - simpl. eexists. split; reflexivity.
  - reflexivity.
  - simpl. lia.
Defined.

(** X6.  Full pages never end the fetch: as long as the pages served hold
    100 items or more, the loop asks for the next one; after [n] such
    pages it has issued [n] requests and has not returned. *)
Theorem full_pages_keep_the_fetch_going {S : Type} `{Spotify S} (pid : str)
    (c c' : S) (lg : list event) (full : list Response) :
  Forall (fun r => 100 <= Py.len (get_items r)) full ->
  serves c pid 0 full c' ->
  get_existing_track_ids (length full) pid (World c lg)
  = (OutOfFuel, World c' (lg ++ requests pid 0 (length full)))
  /\ length (requests pid 0 (length full)) = length full.
Proof.
  intros Hfull Hserves. split; [|apply length_requests].
  apply get_existing_loop_goes_on; assumption.
Qed.

Lemma full_pages_keep_the_fetch_going_witness :
  get_existing_track_ids (length [page_of first_page_items]) dummy
    (World (dummy_init [page_of first_page_items]) [])
  = (OutOfFuel,
     World (Dummy [page_of first_page_items] 1 [])
       ([] ++ requests dummy 0 (length [page_of first_page_items])))
  /\ length (requests dummy 0 (length [page_of first_page_items]))
     = length [page_of first_page_items].
Proof.
  apply (full_pages_keep_the_fetch_going dummy
           (dummy_init [page_of first_page_items])
           (Dummy [page_of first_page_items] 1 []) []
           [page_of first_page_items]).
  - repeat constructor. vm_compute. discriminate.
  - simpl. eexists. split; reflexivity.
Defined.

(** X7.  For a playlist [P] of any length served by offset, in pages of at
    most 100 items, the fetch returns after [len(P) // 100 + 1] requests
    (one more than the full pages, also when [len(P)] is a multiple of
    100, the last page then being empty) with the set of the identifiers
    of [P] that are strings and not empty. *)
Theorem fetch_of_paged_playlist {S : Type} `{Spotify S} (fuel : nat) (pid : str)
    (c c' : S) (lg : list event) (P : list Item) (pages : list Response) :
  map get_items pages = item_pages P ->
  serves c pid 0 pages c' ->
  (length pages <= fuel)%nat ->
  exists evs,
    get_existing_track_ids fuel pid (World c lg)
    = (Return (item_ids P), World c' (lg ++ evs))
    /\ Z.of_nat (length evs) = Py.len P `div` 100 + 1
    /\ page_requests evs
       = map (fun k : nat => (pid, Z.of_nat k * 100, 100, lit "items.track.id,total"))
             (seq 0 (length evs))
    /\ forall id : str,
         id ∈ item_ids P
         <-> id <> [] /\ exists item, item ∈ P /\ listed_id item = Some id.
Proof.
  intros Hpages Hserves Hfuel.
  destruct (item_pages_shape P) as (fullI & shortI & Hshape & HfullI & HshortI & Hconcat & Hlen).
  rewrite Hshape in Hpages.
  apply map_eq_app in Hpages as (full & tl & -> & Hfull & Htl).
  destruct tl as [|short [|? ?]]; try discriminate.
  injection Htl as Hshort.
  exists (requests pid 0 (length full + 1)).
  assert (Hn : length full = length fullI)
    by (rewrite <- Hfull; symmetry; apply length_map).
  split; [|split; [|split]].
  - unfold get_existing_track_ids.
    rewrite (get_existing_loop_serves full short fuel c c' pid ∅ 0 lg); try assumption.
    + rewrite after_pages_concat, map_app, Hfull. cbn [map]. rewrite Hshort.
      rewrite <- Hshape, Hconcat. reflexivity.
    + subst fullI. apply Forall_map in HfullI.
      eapply Forall_impl; [exact HfullI|]. intros r Hr. cbv beta in Hr.
      unfold compose in Hr. unfold Py.len, limit. lia.
    + rewrite Hshort. unfold Py.len, limit. lia.
    + rewrite length_app in Hfuel. cbn [length] in Hfuel. lia.
  - rewrite length_requests, <- Hlen, Hn. lia.
  - rewrite page_requests_requests, length_requests.
    apply map_ext. intros k. unfold limit, fields. rewrite Z.add_0_l. reflexivity.
  - intros id. rewrite item_ids_listed, elem_of_list_to_set, list_elem_of_filter.
    rewrite list_elem_of_omap. reflexivity.
Qed.

Lemma fetch_of_paged_playlist_witness :
  exists evs,
    get_existing_track_ids 2 dummy (World (dummy_init [page_of first_page_items]) [])
    = (Return (item_ids first_page_items),
       World (Dummy [page_of first_page_items] 2 []) ([] ++ evs))
    /\ Z.of_nat (length evs) = Py.len first_page_items `div` 100 + 1
    /\ page_requests evs
       = map (fun k : nat => (dummy, Z.of_nat k * 100, 100, lit "items.track.id,total"))
             (seq 0 (length evs))
    /\ forall id : str,
         id ∈ item_ids first_page_items
         <-> id <> [] /\ exists item, item ∈ first_page_items /\ listed_id item = Some id.
Proof.
  apply (fetch_of_paged_playlist 2 dummy (dummy_init [page_of first_page_items])
           (Dummy [page_of first_page_items] 2 []) []
           first_page_items [page_of first_page_items; empty_page]).
  - vm_compute. reflexivity.
  - simpl. eexists. split; [reflexivity|]. eexists. split; reflexivity.
  - simpl. lia.
Defined.

(** ** The append step: what is sent, and in what shape *)

(** The batches of a residue that is not empty: full ones, then one that
    may be short. *)
Lemma batches_shape l :
  l <> [] ->
  exists full last,
    batches l = full ++ [last]
    /\ Forall (fun b => length b = 100%nat) full
    /\ (1 <= length last <= 100)%nat.
Proof.
  apply (batches_ind (fun l bs => l <> [] ->
           exists full last, bs = full ++ [last]
             /\ Forall (fun b => length b = 100%nat) full
             /\ (1 <= length last <= 100)%nat)); [congruence|].
  clear l. intros l Hl IH _.
  destruct (le_lt_dec (length l) 100) as [Hshort|Hlong].
  - exists [], l. rewrite take_ge, drop_ge, batches_nil by lia.
    split; [reflexivity|]. split; [constructor|].
    destruct l; [congruence|]. cbn [length] in *. lia.
  - destruct IH as (full & last & Hbs & Hfull & Hlast).
    { intros Hd. apply (f_equal length) in Hd. rewrite length_drop in Hd.
      cbn [length] in Hd. lia. }
    exists (take 100 l :: full), last. rewrite Hbs.
    split; [reflexivity|]. split; [|exact Hlast].
    constructor; [rewrite length_take; lia|exact Hfull].
Qed.

Lemma elem_of_batches l b id :
  b ∈ batches l -> id ∈ b -> id ∈ l.
Proof.
  intros Hb Hid. rewrite <- (concat_batches l).
  apply list_elem_of_In, in_concat. exists b.
  split; apply list_elem_of_In; assumption.
Qed.

(** X8.  When the residue is not empty and the client accepts the append
    calls, every append call but the last carries exactly 100 identifiers;
    the last carries what is left, between 1 and 100. *)
Theorem all_batches_but_the_last_are_full {S : Type} `{Spotify S} (fuel : nat)
    (pid : str) (xs : list str) (w w1 : world S) (E : gset str) (c2 : S) :
  get_existing_track_ids fuel pid w = (Return E, w1) ->
  accepts (client w1) pid (batches (to_add E xs)) c2 ->
  to_add E xs <> [] ->
  exists evs full last,
    add_tracks_to_playlist fuel pid xs w = (Return tt, World c2 (log w1 ++ evs))
    /\ append_calls evs = full ++ [last]
    /\ Forall (fun batch => length batch = 100%nat) full
    /\ (1 <= length last <= 100)%nat
    /\ (100 * length full + length last)%nat = length (to_add E xs).
Proof.
  intros Hfetch Hacc Hne.
  destruct (batches_shape _ Hne) as (full & last & Hbs & Hfull & Hlast).
  exists (run_events pid (to_add E xs)), full, last.
  rewrite (add_tracks_fetch_ok _ _ _ _ _ _ Hfetch).
  rewrite append_calls_run_events.
  split; [apply after_fetch_accepts, Hacc|].
  split; [exact Hbs|]. split; [exact Hfull|]. split; [exact Hlast|].
  rewrite <- (concat_batches (to_add E xs)) at 1. rewrite Hbs.
  rewrite concat_app, length_app. cbn [concat]. rewrite app_nil_r. f_equal.
  clear -Hfull. induction Hfull as [|b full Hb _ IH]; [reflexivity|].
  cbn [concat length]. rewrite length_app, <- IH, Hb. lia.
Qed.

Lemma all_batches_but_the_last_are_full_witness :
  exists evs full last,
    add_tracks_to_playlist 1 dummy track_ids_150 (dummy_world [])
    = (Return tt,
       World (Dummy [] 1 [take 100 track_ids_150; drop 100 track_ids_150])
         (log (World (Dummy [] 1 [])
                 [CallPlaylistItems dummy 0 100 (lit "items.track.id,total")])
          ++ evs))
    /\ append_calls evs = full ++ [last]
    /\ Forall (fun batch => length batch = 100%nat) full
    /\ (1 <= length last <= 100)%nat
    /\ (100 * length full + length last)%nat = length (to_add ∅ track_ids_150).
Proof.
  apply (all_batches_but_the_last_are_full 1 dummy track_ids_150 (dummy_world [])
           (World (Dummy [] 1 [])
              [CallPlaylistItems dummy 0 100 (lit "items.track.id,total")])
           ∅ (Dummy [] 1 [take 100 track_ids_150; drop 100 track_ids_150])).
  - vm_compute. reflexivity.
  - vm_compute. eexists. split; [reflexivity|]. eexists. split; reflexivity.
  - vm_compute. discriminate.
Defined.

(** X9.  Whatever the client does after the fetch, and however the run
    ends, an identifier that [add_tracks_to_playlist] puts into an append
    call is one of the input and is not in the snapshot; and no append
    call is empty or holds more than 100 identifiers. *)
Theorem only_new_identifiers_are_sent {S : Type} `{Spotify S} (fuel : nat)
    (pid : str) (xs : list str) (w w1 : world S) (E : gset str) :
  get_existing_track_ids fuel pid w = (Return E, w1) ->
  exists evs,
    log (add_tracks_to_playlist fuel pid xs w).2 = log w1 ++ evs
    /\ forall batch, batch ∈ append_calls evs ->
         (1 <= length batch <= 100)%nat
         /\ forall id, id ∈ batch -> id ∈ xs /\ id ∉ E.
Proof.
  intros Hfetch. rewrite (add_tracks_fetch_ok _ _ _ _ _ _ Hfetch).
  destruct (after_fetch_log pid (to_add E xs) w1)
    as (evs & k & Hlog & _ & Hcalls & _ & _).
  exists evs. split; [exact Hlog|].
  intros batch Hbatch. rewrite Hcalls in Hbatch.
  apply (fun Hin => elem_of_sublist _ _ _ Hin (sublist_take _ k)) in Hbatch.
  split.
  - pose proof (Forall_batches (to_add E xs)) as Hall.
    rewrite Forall_forall in Hall. exact (Hall batch Hbatch).
  - intros id Hid. pose proof (elem_of_batches _ _ _ Hbatch Hid) as Hin.
    unfold to_add in Hin. apply list_elem_of_filter in Hin as [Hnew Hin].
    split; assumption.
Qed.

Lemma only_new_identifiers_are_sent_witness :
  exists evs,
    log (add_tracks_to_playlist 1 dummy track_ids_150
           (World quota_one [])).2
    = log (World (Quota (Dummy [] 1 []) 1)
             [CallPlaylistItems dummy 0 100 (lit "items.track.id,total")])
      ++ evs
    /\ forall batch, batch ∈ append_calls evs ->
         (1 <= length batch <= 100)%nat
         /\ forall id, id ∈ batch -> id ∈ track_ids_150 /\ id ∉ (∅ : gset str).
Proof.
  apply (only_new_identifiers_are_sent 1 dummy track_ids_150 (World quota_one [])
           (World (Quota (Dummy [] 1 []) 1)
              [CallPlaylistItems dummy 0 100 (lit "items.track.id,total")]) ∅).
  vm_compute. reflexivity.
Defined.

(** ** The stand-in client *)

Lemma dummy_accepts responses calls pid bs : forall added,
  accepts (Dummy responses calls added) pid bs (Dummy responses calls (added ++ bs)).
Proof.
  induction bs as [|b bs IH]; intros added.
  - simpl. rewrite app_nil_r. reflexivity.
  - simpl. eexists. split; [reflexivity|].
    cbn [_playlist_responses playlist_items_calls added_batches].
    rewrite (cons_middle b added bs), app_assoc. apply IH.
Qed.

(** On the stand-in client the loop returns, has called [playlist_items]
    at least once and at most once more than there are responses left, and
    has left the responses and the recorded batches alone. *)
Lemma dummy_loop_spec fuel : forall responses calls added pid X offset lg,
  (length responses - calls < fuel)%nat ->
  exists E k lg',
    get_existing_loop fuel pid X offset (World (Dummy responses calls added) lg)
    = (Return E, World (Dummy responses (calls + k) added) lg')
    /\ (1 <= k <= length responses - calls + 1)%nat.
Proof.
  induction fuel as [|fuel IH]; intros responses calls added pid X offset lg Hfuel;
    [lia|].
  cbn [get_existing_loop]. unfold bind, call_playlist_items, record.
  cbn [client log playlist_items dummy_spotify dummy_playlist_items
       _playlist_responses playlist_items_calls added_batches].
  destruct (responses !! calls) as [r|] eqn:Hr.
  - apply lookup_lt_Some in Hr. cbn zeta.
    destruct (Py.len (get_items r) <? limit).
    + eexists _, 1%nat, _. split; [reflexivity|lia].
    + destruct (IH responses (calls + 1)%nat added pid
                  (foldl add_item X (get_items r)) (offset + limit)
                  (lg ++ [CallPlaylistItems pid offset limit fields]))
        as (E & k & lg' & Hrun & Hk); [lia|].
      exists E, (Datatypes.S k), lg'. rewrite Hrun.
      split; [|lia]. do 3 f_equal. lia.
  - eexists _, 1%nat, _. split; [reflexivity|lia].
Qed.

(** X12.  On the stand-in client of the tests, in whatever state, both
    helpers return: the fetch after at least one call of [playlist_items]
    and at most one more than there are responses left, and
    [add_tracks_to_playlist] with the batches of the residue recorded in
    [added_batches], in order, after those that were there. *)
Theorem stand_in_client_runs_return (responses : list Response) (calls : nat)
    (added : list (list str)) (lg : list event) (pid : str)
    (track_ids : list str) :
  exists (E : gset str) (k : nat) (lg1 : list event),
    (1 <= k <= length responses - calls + 1)%nat
    /\ get_existing_track_ids (length responses + 1) pid
         (World (Dummy responses calls added) lg)
       = (Return E, World (Dummy responses (calls + k) added) lg1)
    /\ add_tracks_to_playlist (length responses + 1) pid track_ids
         (World (Dummy responses calls added) lg)
       = (Return tt,
          World (Dummy responses (calls + k) (added ++ batches (to_add E track_ids)))
            (lg1 ++ run_events pid (to_add E track_ids))).
Proof.
  destruct (dummy_loop_spec (length responses + 1) responses calls added pid ∅ 0 lg)
    as (E & k & lg1 & Hfetch & Hk); [lia|].
  fold (get_existing_track_ids (length responses + 1) pid
          (World (Dummy responses calls added) lg)) in Hfetch.
  exists E, k, lg1. split; [exact Hk|]. split; [exact Hfetch|].
  rewrite (add_tracks_fetch_ok _ _ _ _ _ _ Hfetch).
  apply (after_fetch_accepts pid (to_add E track_ids)
           (World (Dummy responses (calls + k) added) lg1)).
  apply dummy_accepts.
Qed.

(** ** main *)

Lemma configuration_check (environ : gmap (list N) (list N)) :
  forallb truthy_opt
    [environ !! lit "SPOTIPY_CLIENT_ID"; environ !! lit "SPOTIPY_CLIENT_SECRET";
     environ !! lit "SPOTIPY_REDIRECT_URI"; environ !! lit "SPOTIFY_USERNAME";
     environ !! lit "SPOTIFY_PLAYLIST_ID"]
  = forallb (fun key => truthy_opt (environ !! key)) required_variables.
Proof. reflexivity. Qed.

Lemma configuration_complete (environ : gmap (list N) (list N)) :
  (forall key, key ∈ required_variables -> truthy_opt (environ !! key) = true) ->
  forallb (fun key => truthy_opt (environ !! key)) required_variables = true.
Proof.
  intros Hall. apply forallb_forall. intros key Hkey.
  apply Hall, list_elem_of_In, Hkey.
Qed.

Lemma path_exists_iff (fs : gmap (list N) (list N)) (p : str) :
  path_exists fs p = true <-> is_Some (fs !! p).
Proof. unfold path_exists. apply bool_decide_eq_true. Qed.

Section MainProperties.

Context {S : Type} `{Spotify S}.
Variable Path : str -> str.
Variable cache_path : str.
Variable Spotify_new : SpotifyOAuth -> S.

Lemma main_configured (fuel : nat) (environ fs : gmap (list N) (list N))
    (content : str) :
  (forall key, key ∈ required_variables -> truthy_opt (environ !! key) = true) ->
  fs !! tracks_file_of Path environ = Some content ->
  main Path cache_path Spotify_new fuel environ fs
  = match normalized content with
    | [] =>
        Finished (Return tt)
          (World (Spotify_new (oauth_of cache_path environ)) [Stdout msg_no_track_ids])
    | _ :: _ =>
        let r := add_tracks_to_playlist fuel
                   (default [] (environ !! lit "SPOTIFY_PLAYLIST_ID"))
                   (normalized content)
                   (World (Spotify_new (oauth_of cache_path environ)) []) in
        Finished r.1 r.2
    end.
Proof.
  intros Hconf Hfile. unfold main. cbv zeta.
  rewrite configuration_check, (configuration_complete _ Hconf).
  fold (tracks_file_of Path environ). fold (oauth_of cache_path environ).
  replace (path_exists fs (tracks_file_of Path environ)) with true
    by (symmetry; apply path_exists_iff; rewrite Hfile; eexists; reflexivity).
  cbn [negb]. unfold read_track_ids, open. rewrite Hfile.
  rewrite foldl_read_line. cbn [app]. fold (normalized content).
  destruct (normalized content) as [|id ids]; [reflexivity|].
  destruct (add_tracks_to_playlist fuel _ (id :: ids) _). reflexivity.
Qed.

End MainProperties.





(** X3.  When the configuration is complete and the track file holds no
    identifier (it is empty, or made of blank lines and comments), [main]
    prints that there is nothing to do and returns: the client it has made
    is not called, not even for the snapshot. *)
Theorem main_nothing_to_do {S : Type} `{Spotify S} (Path : str -> str)
    (cache_path : str) (Spotify_new : SpotifyOAuth -> S) (fuel : nat)
    (environ fs : gmap (list N) (list N)) (content : str) :
  (forall key, key ∈ required_variables -> truthy_opt (environ !! key) = true) ->
  fs !! tracks_file_of Path environ = Some content ->
  normalized content = [] ->
  main Path cache_path Spotify_new fuel environ fs
  = Finished (Return tt)
      (World (Spotify_new (oauth_of cache_path environ))
         [Stdout (lit "No track IDs found in input file; nothing to do.")]).
Proof.
  intros Hconf Hfile Hempty.
  rewrite (main_configured Path cache_path Spotify_new fuel environ fs content Hconf Hfile).
  rewrite Hempty. reflexivity.
Qed.

Lemma main_nothing_to_do_witness :
  main (fun s => s) token_cache (fun _ => dummy_init skip_responses) 1
       full_environ comments_fs
  = Finished (Return tt)
      (World (dummy_init skip_responses)
         [Stdout (lit "No track IDs found in input file; nothing to do.")]).
Proof.
  apply (main_nothing_to_do (fun s => s) token_cache
           (fun _ => dummy_init skip_responses) 1 full_environ comments_fs
           (lit "# nothing yet" ++ [10%N; 10%N])).
  - intros key Hkey. unfold required_variables in Hkey. cbn [map] in Hkey.
    repeat (apply elem_of_cons in Hkey as [->|Hkey]; [vm_compute; reflexivity|]).
    inversion Hkey.
  - vm_compute. reflexivity.
  - vm_compute. reflexivity.
Defined.

(** X4.  When the configuration is complete, the track file holds
    identifiers, the fetch on the new client returns the snapshot [E] and
    the client accepts the append calls, [main] returns after it has sent
    to the playlist [SPOTIFY_PLAYLIST_ID], batch after batch, the
    identifiers of the file that are not in [E], in the order of the
    file. *)
Theorem main_adds_the_new_tracks {S : Type} `{Spotify S} (Path : str -> str)
    (cache_path : str) (Spotify_new : SpotifyOAuth -> S) (fuel : nat)
    (environ fs : gmap (list N) (list N)) (content pid : str)
    (E : gset str) (w1 : world S) (c2 : S) :
  (forall key, key ∈ required_variables -> truthy_opt (environ !! key) = true) ->
  environ !! lit "SPOTIFY_PLAYLIST_ID" = Some pid ->
  fs !! tracks_file_of Path environ = Some content ->
  normalized content <> [] ->
  get_existing_track_ids fuel pid
    (World (Spotify_new (oauth_of cache_path environ)) [])
  = (Return E, w1) ->
  accepts (client w1) pid (batches (to_add E (normalized content))) c2 ->
  main Path cache_path Spotify_new fuel environ fs
  = Finished (Return tt)
      (World c2 (log w1 ++ run_events pid (to_add E (normalized content))))
  /\ append_calls (run_events pid (to_add E (normalized content)))
     = batches (to_add E (normalized content))
  /\ concat (batches (to_add E (normalized content)))
     = filter (fun id => id ∉ E) (normalized content).
Proof.
  intros Hconf Hpid Hfile Hids Hfetch Hacc.
  split; [|split; [apply append_calls_run_events|apply concat_batches]].
  rewrite (main_configured Path cache_path Spotify_new fuel environ fs content Hconf Hfile).
  rewrite Hpid. cbn [default from_option].
  destruct (normalized content) as [|id ids] eqn:Hnorm; [congruence|].
  rewrite <- Hnorm in *. cbv zeta.
  rewrite (add_tracks_fetch_ok _ _ _ _ _ _ Hfetch).
  rewrite (after_fetch_accepts _ _ _ _ Hacc). reflexivity.
Qed.

Lemma main_adds_the_new_tracks_witness :
  main (fun s => s) token_cache (fun _ => dummy_init skip_responses) 1
       full_environ tracks_fs
  = Finished (Return tt)
      (World (Dummy skip_responses 1 [normalized tracks_txt])
         (log (World (Dummy skip_responses 1 [])
                 [CallPlaylistItems dummy 0 100 (lit "items.track.id,total")])
          ++ run_events dummy (to_add {[ lit "id1" ]} (normalized tracks_txt))))
  /\ append_calls (run_events dummy (to_add {[ lit "id1" ]} (normalized tracks_txt)))
     = batches (to_add {[ lit "id1" ]} (normalized tracks_txt))
  /\ concat (batches (to_add {[ lit "id1" ]} (normalized tracks_txt)))
     = filter (fun id => id ∉ ({[ lit "id1" ]} : gset str)) (normalized tracks_txt).
Proof.
  apply (main_adds_the_new_tracks (fun s => s) token_cache
           (fun _ => dummy_init skip_responses) 1 full_environ tracks_fs
           tracks_txt dummy {[ lit "id1" ]}
           (World (Dummy skip_responses 1 [])
              [CallPlaylistItems dummy 0 100 (lit "items.track.id,total")])
           (Dummy skip_responses 1 [normalized tracks_txt])).
  - intros key Hkey. unfold required_variables in Hkey. cbn [map] in Hkey.
    repeat (apply elem_of_cons in Hkey as [->|Hkey]; [vm_compute; reflexivity|]).
    inversion Hkey.
  - vm_compute. reflexivity.
  - vm_compute. reflexivity.
  - vm_compute. discriminate.
  - vm_compute. reflexivity.
  - vm_compute. eexists. split; reflexivity.
Defined.

(** ** read_track_ids: what comes out, and what a well-made file gives *)

Lemma lstrip_cases s :
  Py.lstrip s = [] \/ exists c t, Py.lstrip s = c :: t /\ Py.isspace c = false.
Proof.
  destruct (Py.lstrip s) as [|c t] eqn:Hs; [left; reflexivity|].
  right. exists c, t. split; [reflexivity|]. apply (lstrip_head s c t Hs).
Qed.

Lemma strip_last raw :
  Py.strip raw = []
  \/ exists u c, Py.strip raw = u ++ [c] /\ Py.isspace c = false.
Proof.
  unfold Py.strip, Py.rstrip.
  destruct (lstrip_cases (rev (Py.lstrip raw))) as [->|(c & t & -> & Hc)].
  - left. reflexivity.
  - right. exists (rev t), c. split; [reflexivity|exact Hc].
Qed.

Lemma normalize_line_shape raw id :
  normalize_line raw = Some id ->
  id <> [] /\ (colon ∉ id) /\ exists u c, id = u ++ [c] /\ Py.isspace c = false.
Proof.
  unfold normalize_line.
  destruct (decide (Py.strip raw = [])) as [|Hne]; [discriminate|].
  destruct (decide (first_non_whitespace raw = Some hash)); [discriminate|].
  destruct (strip_last raw) as [|(u & c & Hstrip & Hc)]; [congruence|].
  destruct (decide (colon ∈ Py.strip raw)) as [Hcolon|Hcolon].
  - destruct (decide (after_last colon (Py.strip raw) = [])) as [|Hid]; [discriminate|].
    intros [= <-]. split; [exact Hid|].
    destruct (after_last_spec colon _ Hcolon) as (p & Hsplit & Hnone).
    split; [exact Hnone|].
    destruct (after_last colon (Py.strip raw)) as [|x t _] using rev_ind; [congruence|].
    exists t, x. split; [reflexivity|].
    rewrite Hstrip in Hsplit.
    change (p ++ colon :: t ++ [x]) with (p ++ (colon :: t) ++ [x]) in Hsplit.
    rewrite app_assoc in Hsplit. apply app_inj_tail in Hsplit as [_ ->]. exact Hc.
  - destruct (decide (Py.strip raw = [])); [discriminate|].
    intros [= <-]. split; [exact Hne|]. split; [exact Hcolon|].
    exists u, c. split; assumption.
Qed.

(** X10.  Every identifier [read_track_ids] returns is non-empty, holds no
    colon, and does not end in whitespace. *)
Theorem read_track_ids_shape (fs : gmap (list N) (list N)) (file_path : str)
    (ids : list str) :
  read_track_ids fs file_path = inr ids ->
  Forall (fun id => id <> [] /\ (colon ∉ id)
                    /\ exists u c, id = u ++ [c] /\ Py.isspace c = false) ids.
Proof.
  unfold read_track_ids, open.
  destruct (fs !! file_path) as [content|]; [|discriminate].
  intros [= <-]. rewrite foldl_read_line. cbn [app].
  apply Forall_forall. intros id Hid.
  apply list_elem_of_omap in Hid as (raw & _ & Hraw).
  apply (normalize_line_shape raw id Hraw).
Qed.

Lemma read_track_ids_shape_witness :
  Forall (fun id => id <> [] /\ (colon ∉ id)
                    /\ exists u c, id = u ++ [c] /\ Py.isspace c = false)
    (map lit ["6rqhFgbbKwnb9MLmUQDhG6"; "60nZcImufyMA1MKQY3dcCH"; "last"]%string).
Proof.
  apply (read_track_ids_shape tracks_fs (lit "tracks.txt")).
  vm_compute. reflexivity.
Defined.

Lemma universal_newlines_no_cr s :
  13%N ∉ s -> Py.universal_newlines false s = s.
Proof.
  induction s as [|c s IH]; intros Hs; [reflexivity|].
  apply not_elem_of_cons in Hs as [Hc Hs]. cbn [Py.universal_newlines].
  destruct (N.eqb_spec c 13) as [->|_]; [congruence|].
  rewrite andb_false_r, (IH Hs). reflexivity.
Qed.

Lemma lines_first_line l rest :
  10%N ∉ l -> Py.lines (l ++ 10%N :: rest) = (l ++ [10%N]) :: Py.lines rest.
Proof.
  induction l as [|c l IH]; intros Hl; cbn [app Py.lines].
  - reflexivity.
  - apply not_elem_of_cons in Hl as [Hc Hl].
    destruct (N.eqb_spec c 10) as [->|_]; [congruence|].
    rewrite (IH Hl). reflexivity.
Qed.

Lemma lstrip_blanks ws s :
  forallb Py.isspace ws = true -> Py.lstrip (ws ++ s) = Py.lstrip s.
Proof.
  induction ws as [|c ws IH]; intros Hws; [reflexivity|].
  cbn [forallb] in Hws. apply andb_true_iff in Hws as [Hc Hws].
  cbn [app Py.lstrip]. rewrite Hc. apply (IH Hws).
Qed.

Lemma rstrip_blanks s ws :
  forallb Py.isspace ws = true -> Py.rstrip (s ++ ws) = Py.rstrip s.
Proof.
  intros Hws. unfold Py.rstrip. rewrite rev_app_distr, lstrip_blanks; [reflexivity|].
  apply forallb_forall. intros c Hc. apply in_rev in Hc.
  rewrite forallb_forall in Hws. apply (Hws c Hc).
Qed.

Lemma lstrip_nonspace a s : Py.isspace a = false -> Py.lstrip (a :: s) = a :: s.
Proof. intros Ha. cbn [Py.lstrip]. rewrite Ha. reflexivity. Qed.

Lemma rstrip_nonspace v b : Py.isspace b = false -> Py.rstrip (v ++ [b]) = v ++ [b].
Proof.
  intros Hb. unfold Py.rstrip. rewrite rev_unit, (lstrip_nonspace b _ Hb).
  cbn [rev]. rewrite rev_involutive. reflexivity.
Qed.

Lemma is_blank_spec ws :
  forallb is_blank ws = true ->
  forallb Py.isspace ws = true /\ (10%N ∉ ws) /\ (13%N ∉ ws).
Proof.
  induction ws as [|c ws IH]; intros Hws.
  - repeat split; [apply not_elem_of_nil|apply not_elem_of_nil].
  - cbn [forallb] in Hws. apply andb_true_iff in Hws as [Hc Hws].
    destruct (IH Hws) as (Hsp & Hlf & Hcr).
    unfold is_blank in Hc.
    apply andb_true_iff in Hc as [Hc Hc13]. apply andb_true_iff in Hc as [Hc Hc10].
    apply negb_true_iff, N.eqb_neq in Hc10, Hc13.
    split; [cbn [forallb]; rewrite Hc, Hsp; reflexivity|].
    split; apply not_elem_of_cons; split; assumption || congruence.
Qed.

(** Trimming a line whose text has no whitespace at either end gives the
    text. *)
Lemma strip_padded indent trailing a b u v text :
  forallb Py.isspace indent = true ->
  forallb Py.isspace (trailing ++ [10%N]) = true ->
  text = a :: u -> text = v ++ [b] ->
  Py.isspace a = false -> Py.isspace b = false ->
  Py.strip (indent ++ text ++ trailing ++ [10%N]) = text.
Proof.
  intros Hindent Htrailing Ha Hb Hsa Hsb. unfold Py.strip.
  rewrite (lstrip_blanks _ _ Hindent).
  rewrite Ha at 1. cbn [app]. rewrite (lstrip_nonspace a _ Hsa).
  change (a :: u ++ trailing ++ [10%N]) with ((a :: u) ++ trailing ++ [10%N]).
  rewrite <- Ha, (rstrip_blanks _ _ Htrailing), Hb.
  apply (rstrip_nonspace v b Hsb).
Qed.

Lemma forallb_isspace_trailing trailing :
  forallb Py.isspace trailing = true ->
  forallb Py.isspace (trailing ++ [10%N]) = true.
Proof. intros Ht. rewrite forallb_app, Ht. reflexivity. Qed.

Lemma uri_prefix id :
  lit "spotify:track:" ++ id = lit "spotify:track" ++ colon :: id.
Proof. reflexivity. Qed.

Lemma normalize_rendered_line (l : str * entry * str) :
  well_formed_line l -> normalize_line (render_line l) = entry_id l.1.2.
Proof.
  destruct l as [[indent e] trailing]. unfold well_formed_line, render_line.
  cbn [fst snd]. intros (Hindent & Htrailing & He).
  apply is_blank_spec in Hindent as (Hindent & _ & _).
  apply is_blank_spec in Htrailing as (Htrailing & _ & _).
  pose proof (forallb_isspace_trailing _ Htrailing) as Htl.
  unfold normalize_line.
  destruct e as [id|id|text|]; cbn [entry_text entry_id].
  - destruct He as (Hcolon & _ & _ & a & b & u & v & Ha & Hb & Hsa & Hsb & Hhash).
    subst id.
    rewrite (strip_padded indent trailing a b u v (a :: u) Hindent Htl eq_refl Hb Hsa Hsb).
    rewrite first_non_whitespace_lstrip, (lstrip_blanks _ _ Hindent).
    cbn [app]. rewrite (lstrip_nonspace a _ Hsa). cbn [head].
    rewrite decide_False by discriminate.
    rewrite decide_False by congruence.
    destruct (decide (colon ∈ a :: u)); [tauto|].
    rewrite decide_False by discriminate. reflexivity.
  - destruct He as (Hcolon & _ & _ & a & b & u & v & Ha & Hb & Hsa & Hsb & Hhash).
    subst id.
    set (id := a :: u) in *.
    assert (Htext : Py.strip (indent ++ (lit "spotify:track:" ++ id) ++ trailing ++ [10%N])
                    = lit "spotify:track:" ++ id).
    { apply (strip_padded indent trailing 115%N b
               (lit "potify:track:" ++ id) (lit "spotify:track:" ++ v));
        try assumption; try reflexivity.
      rewrite Hb, app_assoc. reflexivity. }
    rewrite Htext.
    rewrite first_non_whitespace_lstrip, (lstrip_blanks _ _ Hindent).
    change (head (Py.lstrip ((lit "spotify:track:" ++ id) ++ trailing ++ [10%N])))
      with (Some 115%N).
    rewrite decide_False by discriminate.
    rewrite decide_False by discriminate.
    rewrite uri_prefix.
    destruct (decide (colon ∈ lit "spotify:track" ++ colon :: id)) as [_|Hn];
      [|destruct Hn; apply list_elem_of_In, in_elt].
    rewrite (after_last_app colon _ id Hcolon).
    rewrite decide_False by discriminate. reflexivity.
  - assert (Hfirst : first_non_whitespace (indent ++ (hash :: text) ++ trailing ++ [10%N])
                     = Some hash).
    { rewrite first_non_whitespace_lstrip, (lstrip_blanks _ _ Hindent). reflexivity. }
    destruct (decide (Py.strip (indent ++ (hash :: text) ++ trailing ++ [10%N]) = []));
      [reflexivity|].
    rewrite decide_True by exact Hfirst. reflexivity.
  - cbn [app].
    assert (Hall : forallb Py.isspace (indent ++ trailing ++ [10%N]) = true)
      by (rewrite forallb_app, Hindent, Htl; reflexivity).
    assert (Hstrip : Py.strip (indent ++ trailing ++ [10%N]) = []).
    { unfold Py.strip. rewrite <- (app_nil_r (indent ++ trailing ++ [10%N])).
      rewrite (lstrip_blanks _ [] Hall). reflexivity. }
    rewrite decide_True by exact Hstrip. reflexivity.
Qed.

Lemma render_line_body (l : str * entry * str) :
  well_formed_line l ->
  exists body, render_line l = body ++ [10%N] /\ (10%N ∉ body) /\ (13%N ∉ body).
Proof.
  destruct l as [[indent e] trailing]. unfold well_formed_line, render_line.
  cbn [fst snd]. intros (Hindent & Htrailing & He).
  apply is_blank_spec in Hindent as (_ & Hi10 & Hi13).
  apply is_blank_spec in Htrailing as (_ & Ht10 & Ht13).
  exists (indent ++ entry_text e ++ trailing).
  split; [rewrite <- !app_assoc; reflexivity|].
  assert (Htext : (10%N ∉ entry_text e) /\ (13%N ∉ entry_text e)).
  { destruct e as [id|id|text|]; cbn [entry_text].
    - destruct He as (_ & H10 & H13 & _). split; assumption.
    - destruct He as (_ & H10 & H13 & _).
      split; apply not_elem_of_app; (split; [|assumption]);
        apply (bool_decide_unpack _); vm_compute; exact I.
    - destruct He as [H10 H13].
      split; apply not_elem_of_cons; (split; [discriminate|assumption]).
    - split; apply not_elem_of_nil. }
  destruct Htext as [He10 He13].
  split; repeat (apply not_elem_of_app; split); assumption.
Qed.

Lemma render_no_cr ls : Forall well_formed_line ls -> 13%N ∉ render ls.
Proof.
  induction 1 as [|l ls Hl _ IH]; [apply not_elem_of_nil|].
  unfold render. cbn [map concat]. fold (render ls).
  destruct (render_line_body l Hl) as (body & -> & _ & H13).
  repeat (apply not_elem_of_app; split); try assumption.
  apply not_elem_of_cons. split; [discriminate|apply not_elem_of_nil].
Qed.

Lemma lines_render ls :
  Forall well_formed_line ls -> Py.lines (render ls) = map render_line ls.
Proof.
  induction 1 as [|l ls Hl _ IH]; [reflexivity|].
  unfold render. cbn [map concat]. fold (render ls).
  destruct (render_line_body l Hl) as (body & Hbody & H10 & _).
  rewrite Hbody, <- app_assoc. cbn [app].
  rewrite (lines_first_line body _ H10), IH. reflexivity.
Qed.

(** X11.  A track file made of plain identifiers, [spotify:track:] URIs,
    comments and blank lines, each on a line of its own, indented or
    followed by blanks or not, reads back as the identifiers, in the order
    of the file. *)
Theorem read_track_ids_of_rendered (fs : gmap (list N) (list N)) (file_path : str)
    (ls : list (str * entry * str)) :
  Forall well_formed_line ls ->
  fs !! file_path = Some (render ls) ->
  read_track_ids fs file_path = inr (omap (fun l => entry_id l.1.2) ls).
Proof.
  intros Hls Hfile. unfold read_track_ids, open. rewrite Hfile. f_equal.
  rewrite foldl_read_line. cbn [app]. unfold Py.iter_file.
  rewrite (universal_newlines_no_cr _ (render_no_cr ls Hls)), (lines_render ls Hls).
  clear Hfile. induction Hls as [|l ls Hl _ IH]; [reflexivity|].
  cbn [map].
  change (omap normalize_line (render_line l :: map render_line ls))
    with (match normalize_line (render_line l) with
          | Some id => id :: omap normalize_line (map render_line ls)
          | None => omap normalize_line (map render_line ls)
          end).
  change (omap (fun l => entry_id l.1.2) (l :: ls))
    with (match entry_id l.1.2 with
          | Some id => id :: omap (fun l => entry_id l.1.2) ls
          | None => omap (fun l => entry_id l.1.2) ls
          end).
  rewrite (normalize_rendered_line l Hl), IH. reflexivity.
Qed.

Lemma read_track_ids_of_rendered_witness :
  read_track_ids {[ lit "tracks.txt" := render sample_lines ]} (lit "tracks.txt")
  = inr (omap (fun l => entry_id l.1.2) sample_lines).
Proof.
  apply (read_track_ids_of_rendered
           {[ lit "tracks.txt" := render sample_lines ]} (lit "tracks.txt")
           sample_lines).
  - unfold sample_lines.
    repeat (apply Forall_cons; split); try apply Forall_nil;
      unfold well_formed_line, plain_id; cbn [fst snd];
      repeat split;
      try (apply (bool_decide_unpack _); vm_compute; exact I).
    + exists 97%N, 98%N, [98%N], [97%N]. repeat split; discriminate.
    + exists 99%N, 100%N, [100%N], [99%N]. repeat split; discriminate.
  - vm_compute. reflexivity.
Defined.

Example sample_lines_read :
  render sample_lines
  = lit "  # my tracks" ++ [10%N] ++ lit " " ++ [10%N] ++ lit "ab " ++ [10%N]
    ++ [9%N] ++ lit "spotify:track:cd" ++ [10%N]
  /\ omap (fun l => entry_id l.1.2) sample_lines = [lit "ab"; lit "cd"].
Proof. split; reflexivity. Qed.
